(** * slides-factory: the outline parser of [bin/parse.js]

    A shallow embedding of [parseOutline] and [parseSlideBlock] together with
    the parts of the JavaScript string and regular-expression library they
    call, followed by the properties of the parser. *)

From Stdlib Require Import String Ascii.
From Stdlib Require Import List NArith ZArith Bool Arith Lia.
Import ListNotations.

(* ================================================================== *)
(** * JavaScript strings *)
(* ================================================================== *)

(** A JavaScript string is a sequence of UTF-16 code units. *)
Definition str := list N.

(** [js "..."] reads an ASCII literal the way the JavaScript source writes
    it: backslash-n is the line feed, backslash-r the carriage return and
    backslash-t the tab. *)
Fixpoint js (s : string) : str :=
  match s with
  | EmptyString => []
  | String "\" (String "n" s') => 10%N :: js s'
  | String "\" (String "r" s') => 13%N :: js s'
  | String "\" (String "t" s') => 9%N :: js s'
  | String c s' => N_of_ascii c :: js s'
  end.

Definition inRange (lo hi c : N) : bool := (lo <=? c)%N && (c <=? hi)%N.

(** LineTerminator of ECMA-262: LF, CR, LS, PS. *)
Definition isLineTerminator (c : N) : bool :=
  (c =? 10)%N || (c =? 13)%N || (c =? 8232)%N || (c =? 8233)%N.

(** What [String.prototype.trim] strips and the class [\s] matches:
    WhiteSpace (TAB, VT, FF, SP, NBSP, ZWNBSP and the category Zs) and
    LineTerminator. *)
Definition isWhiteSpace (c : N) : bool :=
  inRange 9 13 c || (c =? 32)%N || (c =? 160)%N || (c =? 5760)%N
  || inRange 8192 8202 c || (c =? 8232)%N || (c =? 8233)%N
  || (c =? 8239)%N || (c =? 8287)%N || (c =? 12288)%N || (c =? 65279)%N.

Definition isEmpty (s : str) : bool :=
  match s with [] => true | _ => false end.

(** Truthiness of a string: non-empty. *)
Definition truthy (s : str) : bool := negb (isEmpty s).

Fixpoint trimStart (s : str) : str :=
  match s with
  | [] => []
  | c :: s' => if isWhiteSpace c then trimStart s' else s
  end.

Fixpoint trimEnd (s : str) : str :=
  match s with
  | [] => []
  | c :: s' =>
      match trimEnd s' with
      | [] => if isWhiteSpace c then [] else [c]
      | t => c :: t
      end
  end.

(** [s.trim()] *)
Definition trim (s : str) : str := trimEnd (trimStart s).

(** [s.split(sep)] for a separator of one code unit. *)
Fixpoint splitOn (sep : N) (s : str) : list str :=
  match s with
  | [] => [[]]
  | c :: s' =>
      if (c =? sep)%N then [] :: splitOn sep s'
      else match splitOn sep s' with
           | [] => [[c]]
           | l :: ls => (c :: l) :: ls
           end
  end.

(** [parts.join(sep)] *)
Fixpoint join (sep : str) (parts : list str) : str :=
  match parts with
  | [] => []
  | [p] => p
  | p :: ps => p ++ sep ++ join sep ps
  end.

(** [s.startsWith(p)] *)
Fixpoint startsWith (p s : str) : bool :=
  match p, s with
  | [], _ => true
  | _ :: _, [] => false
  | a :: p', b :: s' => (a =? b)%N && startsWith p' s'
  end.

(** [s.slice(n)] for [n >= 0]. *)
Definition slice (n : nat) (s : str) : str := skipn n s.

(* ================================================================== *)
(** * Regular expressions *)
(* ================================================================== *)

(** The fragment of the regular-expression language that [parse.js] uses:
    sequences of assertions, single characters and character classes, greedy
    quantifiers over one character class, and capture groups.  There is no
    alternation, and no quantifier over a group. *)
Module Re.

Inductive cclass : Type :=
| Chr (c : N)              (* a literal character *)
| Space                    (* \s *)
| Dot                      (* .  (no "s" flag) *)
| OneOf (cs : list N)      (* [...] *)
| NoneOf (cs : list N).    (* [^...] *)

Definition mem (c : N) (cs : list N) : bool := existsb (N.eqb c) cs.

Definition cmatch (k : cclass) (c : N) : bool :=
  match k with
  | Chr a => (a =? c)%N
  | Space => isWhiteSpace c
  | Dot => negb (isLineTerminator c)
  | OneOf cs => mem c cs
  | NoneOf cs => negb (mem c cs)
  end.

Inductive node : Type :=
| Bol                                          (* ^ *)
| Eol                                          (* $ *)
| One (k : cclass)                             (* k *)
| Rep (k : cclass) (lo : nat) (hi : option nat) (* k{lo,hi}, greedy *)
| Open (g : nat)                               (* ( of group g *)
| Close (g : nat).                             (* ) of group g *)

Definition regex := list node.

Definition plus (k : cclass) : node := Rep k 1 None.
Definition star (k : cclass) : node := Rep k 0 None.

(** The captures of a match, most recent first. *)
Definition captures := list (nat * str).

(** [^]: at index 0, or with the flag [m] after a line terminator.  [prev] is
    the code unit before the current position, [None] at index 0. *)
Definition atBol (m : bool) (prev : option N) : bool :=
  match prev with
  | None => true
  | Some c => m && isLineTerminator c
  end.

(** [$]: at the end of input, or with the flag [m] before a line
    terminator. *)
Definition atEol (m : bool) (s : str) : bool :=
  match s with
  | [] => true
  | c :: _ => m && isLineTerminator c
  end.

(** The longest run of code units of class [k] at the head of [s], at most
    [hi] of them. *)
Fixpoint runLength (k : cclass) (hi : option nat) (s : str) : nat :=
  match hi with
  | Some O => O
  | _ =>
      match s with
      | c :: s' =>
          if cmatch k c then S (runLength k (option_map pred hi) s') else O
      | [] => O
      end
  end.

(** The code unit before the position reached by consuming [n] code units
    of [s] from a position whose previous code unit is [prev]. *)
Definition prevAfter (prev : option N) (s : str) (n : nat) : option N :=
  match n with
  | O => prev
  | S n' => nth_error s n'
  end.

(** Greedy backtracking: try [lo + n] repetitions, then [lo + n - 1], ...,
    down to [lo]; the first that lets the rest of the pattern match wins. *)
Fixpoint descend {A : Type} (n lo : nat) (try : nat -> option A) : option A :=
  match try (lo + n) with
  | Some r => Some r
  | None =>
      match n with
      | O => None
      | S n' => descend n' lo try
      end
  end.

Definition lookup (g : nat) (cs : captures) : option str :=
  option_map snd (find (fun e => Nat.eqb (fst e) g) cs).

(** Match [r] at the current position: [prev] is the code unit before it and
    [s] the input from it on.  [opened] holds, for each group whose
    parenthesis is open, the input at its opening.  The result is the input
    left after the match and the captures. *)
Fixpoint exec (m : bool) (r : regex) (prev : option N) (s : str)
         (opened caps : captures) {struct r} : option (str * captures) :=
  match r with
  | [] => Some (s, caps)
  | Bol :: r' => if atBol m prev then exec m r' prev s opened caps else None
  | Eol :: r' => if atEol m s then exec m r' prev s opened caps else None
  | One k :: r' =>
      match s with
      | c :: s' => if cmatch k c then exec m r' (Some c) s' opened caps else None
      | [] => None
      end
  | Rep k lo hi :: r' =>
      let n := runLength k hi s in
      if n <? lo then None
      else descend (n - lo) lo
             (fun j => exec m r' (prevAfter prev s j) (skipn j s) opened caps)
  | Open g :: r' => exec m r' prev s ((g, s) :: opened) caps
  | Close g :: r' =>
      match lookup g opened with
      | Some o =>
          exec m r' prev s opened
               ((g, firstn (length o - length s) o) :: caps)
      | None => exec m r' prev s opened caps
      end
  end.

(** The result of a successful search: the input before the match, the
    input after it, and the captures. *)
Record found : Type := Found { before : str; after : str; groups : captures }.

(** [RegExpBuiltinExec] without the flags [g] and [y]: the leftmost start
    position, from index 0 to the end of input, at which [r] matches. *)
Fixpoint search (m : bool) (r : regex) (prev : option N) (s : str)
         (skipped : str) : option found :=
  match exec m r prev s [] [] with
  | Some (rest, caps) => Some (Found skipped rest caps)
  | None =>
      match s with
      | [] => None
      | c :: s' => search m r (Some c) s' (skipped ++ [c])
      end
  end.

(** [s.match(r)] for a regex without the flag [g]: [null] or the match. *)
Definition matchRe (m : bool) (r : regex) (s : str) : option found :=
  search m r None s [].

(** [s.replace(r, '')] for a regex without the flag [g]: the first match is
    removed. *)
Definition replaceEmpty (m : bool) (r : regex) (s : str) : str :=
  match matchRe m r s with
  | Some f => before f ++ after f
  | None => s
  end.

(** The loop of [RegExp.prototype[Symbol.split]] for a regex without capture
    groups, at position [q]: [piece] is the input from [p] to [q], and [skip]
    counts the code units of the last match that are still to be passed
    over.  An empty match at [p] advances by one code unit. *)
Fixpoint splitLoop (m : bool) (r : regex) (prev : option N) (s : str)
         (skip : nat) (piece : str) : list str :=
  match s with
  | [] => [piece]
  | c :: s' =>
      match skip with
      | S k => splitLoop m r (Some c) s' k piece
      | O =>
          match exec m r prev s [] [] with
          | None => splitLoop m r (Some c) s' O (piece ++ [c])
          | Some (rest, _) =>
              match length s - length rest with
              | O =>
                  match piece with
                  | [] => splitLoop m r (Some c) s' O [c]
                  | _ => piece :: splitLoop m r (Some c) s' O [c]
                  end
              | S k => piece :: splitLoop m r (Some c) s' k []
              end
          end
      end
  end.

(** [s.split(r)] for a regex without capture groups and no limit. *)
Definition split (m : bool) (r : regex) (s : str) : list str :=
  match s with
  | [] => match exec m r None [] [] [] with Some _ => [] | None => [[]] end
  | _ => splitLoop m r None s O []
  end.

End Re.

(* ================================================================== *)
(** * The outline parser *)
(* ================================================================== *)

(** ** Results of JavaScript code that may throw *)

(** [TypeError]: a method or property of [undefined] was used.
    [NotAString]: [undefined] was stored where the document holds a string;
    JavaScript does not throw there, the model reports it so that a returned
    document holds strings only. *)
Inductive error : Type := TypeError | NotAString.

Inductive result (A : Type) : Type :=
| Ok (a : A)
| Throw (e : error).

Arguments Ok {A} a.
Arguments Throw {A} e.

Definition bind {A B : Type} (c : result A) (k : A -> result B) : result B :=
  match c with
  | Ok a => k a
  | Throw e => Throw e
  end.

Notation "x <- c ;; k" := (bind c (fun x => k))
  (at level 61, c at next level, right associativity).

(** [match[g]]: the capture of group [g], [undefined] when there is none. *)
Definition group (f : Re.found) (g : nat) : option str :=
  Re.lookup g (Re.groups f).

(** The receiver of a method call or property access. *)
Definition receiver (v : option str) : result str :=
  match v with
  | Some s => Ok s
  | None => Throw TypeError
  end.

(** A value stored in a string field of the document. *)
Definition stored (v : option str) : result str :=
  match v with
  | Some s => Ok s
  | None => Throw NotAString
  end.

(** ** The document *)

Record BulletItem : Type := { text : str; level : Z }.

Inductive ContentBlock : Type :=
| Bullets (items : list BulletItem)   (* type: 'bullets' *)
| Image (alt src : str)               (* type: 'image' *)
| Code (language code : str)          (* type: 'code' *)
| Text (text : str).                  (* type: 'text' *)

Record Slide : Type := { slide_title : str; content : list ContentBlock }.

Record Document : Type := {
  title : str;
  subtitle : str;
  theme : str;
  timing_default : Z;
  slides : list Slide
}.

(** ** The regular expressions of [parse.js] *)

Definition ch (a : ascii) : N := N_of_ascii a.
Arguments ch a%_char.

Import Re.

(** [/^---$/] *)
Definition reSeparator : regex :=
  [Bol; One (Chr (ch "-")); One (Chr (ch "-")); One (Chr (ch "-")); Eol].

(** [/^#\s+(.+)$/] *)
Definition reTitle : regex :=
  [Bol; One (Chr (ch "#")); plus Space; Open 1; plus Dot; Close 1; Eol].

(** [/^##\s+(.+)$/] *)
Definition reSubtitle : regex :=
  [Bol; One (Chr (ch "#")); One (Chr (ch "#")); plus Space;
   Open 1; plus Dot; Close 1; Eol].

(** [/^#{1,2}\s+/] *)
Definition reHeading : regex :=
  [Bol; Rep (Chr (ch "#")) 1 (Some 2); plus Space].

(** [/^#\s+/] *)
Definition reHash : regex :=
  [Bol; One (Chr (ch "#")); plus Space].

(** The image pattern, here with blanks between its parts:
    [^ ! \[ ( [^\]]* ) \] \( ( [^)]+ ) \) $] *)
Definition reImage : regex :=
  [Bol; One (Chr (ch "!")); One (Chr (ch "["));
   Open 1; star (NoneOf [ch "]"]); Close 1;
   One (Chr (ch "]")); One (Chr (ch "("));
   Open 2; plus (NoneOf [ch ")"]); Close 2;
   One (Chr (ch ")")); Eol].

(** The bullet pattern, here with blanks between its parts:
    [^ ( \s* ) [-*] \s+ ( .+ ) $] *)
Definition reBullet : regex :=
  [Bol; Open 1; star Space; Close 1; One (OneOf [ch "-"; ch "*"]);
   plus Space; Open 2; plus Dot; Close 2; Eol].

Definition isSome {A : Type} (o : option A) : bool :=
  match o with Some _ => true | None => false end.

Definition LF : N := 10.
Definition fence : str := js "```".

(** ** [parseSlideBlock] *)

(** The first loop of [parseSlideBlock], on [lines.slice(i)]: the slide's
    title and the lines left for the second loop. *)
Fixpoint findTitle (lines : list str) : str * list str :=
  match lines with
  | [] => ([], [])
  | l :: rest =>
      let line := trim l in
      if isSome (matchRe false reTitle line)
      then (trim (replaceEmpty false reHash line), rest)
      else if truthy line then ([], lines)
      else findTitle rest
  end.

(** The five places that push the pending bullets as one block. *)
Definition flush (currentBullets : list BulletItem)
           (content : list ContentBlock) : list ContentBlock :=
  match currentBullets with
  | [] => content
  | _ => content ++ [Bullets currentBullets]
  end.

(** The second loop of [parseSlideBlock], on [lines.slice(i)], and the loop
    inside it that collects the lines of a code block.  Every branch of the
    source advances [i] by one, so each call is on the tail. *)
Fixpoint contentLoop (lines : list str) (content : list ContentBlock)
         (currentBullets : list BulletItem) {struct lines}
  : result (list ContentBlock) :=
  match lines with
  | [] => Ok (flush currentBullets content)
  | line :: rest =>
      let trimmed := trim line in
      if negb (truthy trimmed)
      then contentLoop rest (flush currentBullets content) []
      else
        match matchRe false reImage trimmed with
        | Some imageMatch =>
            alt <- stored (group imageMatch 1) ;;
            src <- stored (group imageMatch 2) ;;
            contentLoop rest (flush currentBullets content ++ [Image alt src]) []
        | None =>
            match matchRe false reBullet line with
            | Some bulletMatch =>
                g1 <- receiver (group bulletMatch 1) ;;
                g2 <- receiver (group bulletMatch 2) ;;
                let indent := Z.of_nat (length g1) in
                let text := trim g2 in
                contentLoop rest content
                  (currentBullets ++ [{| text := text; level := (indent / 2)%Z |}])
            | None =>
                if startsWith fence trimmed
                then
                  let lang := trim (slice 3 trimmed) in
                  codeLoop rest (flush currentBullets content)
                           (if truthy lang then lang else js "text") []
                else
                  contentLoop rest (flush currentBullets content ++ [Text trimmed]) []
            end
        end
  end
with codeLoop (lines : list str) (content : list ContentBlock)
         (language : str) (codeLines : list str) {struct lines}
  : result (list ContentBlock) :=
  match lines with
  | [] => Ok (content ++ [Code language (join [LF] codeLines)])
  | l :: rest =>
      if startsWith fence (trim l)
      then contentLoop rest (content ++ [Code language (join [LF] codeLines)]) []
      else codeLoop rest content language (codeLines ++ [l])
  end.

Definition parseSlideBlock (block : str) : result Slide :=
  let lines := splitOn LF block in
  let '(title, rest) := findTitle lines in
  content <- contentLoop rest [] [] ;;
  Ok {| slide_title := title; content := content |}.

(** ** [parseOutline] *)

(** [text.split(/^---$/m).map(b => b.trim()).filter(Boolean)] *)
Definition blocksOf (text : str) : list str :=
  filter truthy (map trim (split true reSeparator text)).

(** [firstBlockLines.every(...)] over the non-blank lines of the block. *)
Definition isTitleOnly (firstBlock : str) : bool :=
  let firstBlockLines :=
    filter (fun l => truthy (trim l)) (splitOn LF firstBlock) in
  forallb (fun line =>
             isSome (matchRe false reHeading line) || isEmpty (trim line))
          firstBlockLines.

(** The [for] loop over [slideBlocks]; a slide object is always truthy. *)
Fixpoint parseSlides (slideBlocks : list str) : result (list Slide) :=
  match slideBlocks with
  | [] => Ok []
  | block :: rest =>
      slide <- parseSlideBlock block ;;
      more <- parseSlides rest ;;
      Ok (slide :: more)
  end.

(** The title or subtitle taken from a match, the initial [''] otherwise. *)
Definition headingText (m : option found) : result str :=
  match m with
  | Some f => s <- receiver (group f 1) ;; Ok (trim s)
  | None => Ok []
  end.

(** The source also computes [text.split('\n')] into [lines] and never uses
    it. *)
Definition parseOutline (text : str) : result Document :=
  let blocks := blocksOf text in
  match blocks with
  | [] =>
      Ok {| title := []; subtitle := []; theme := js "minimal";
            timing_default := 5; slides := [] |}
  | firstBlock :: _ =>
      let titleMatch := matchRe true reTitle firstBlock in
      let subtitleMatch := matchRe true reSubtitle firstBlock in
      title <- headingText titleMatch ;;
      subtitle <- headingText subtitleMatch ;;
      let slideBlocks := if isTitleOnly firstBlock then tl blocks else blocks in
      slides <- parseSlides slideBlocks ;;
      Ok {| title := title; subtitle := subtitle; theme := js "minimal";
            timing_default := 5; slides := slides |}
  end.

Definition bullet (t : string) (l : Z) : BulletItem :=
  {| text := js t; level := l |}.


(* ================================================================== *)
(** * Notions used in the statements *)
(* ================================================================== *)

(** The groups that a pattern closes after having opened them. *)
Fixpoint closes (r : regex) (open : list nat) (g : nat) : bool :=
  match r with
  | [] => false
  | Open h :: r' => closes r' (h :: open) g
  | Close h :: r' =>
      (Nat.eqb h g && existsb (fun k => Nat.eqb k h) open) || closes r' open g
  | _ :: r' => closes r' open g
  end.

(** One iteration of the second loop of [parseSlideBlock] decides what the
    line is, in this order. *)
Inductive lineKind : Type :=
| Blank
| ImageLine (alt src : str)
| BulletLine (item : BulletItem)
| FenceLine (language : str)
| TextLine (text : str).

Definition classify (line : str) : result lineKind :=
  let trimmed := trim line in
  if negb (truthy trimmed) then Ok Blank
  else
    match matchRe false reImage trimmed with
    | Some imageMatch =>
        alt <- stored (group imageMatch 1) ;;
        src <- stored (group imageMatch 2) ;;
        Ok (ImageLine alt src)
    | None =>
        match matchRe false reBullet line with
        | Some bulletMatch =>
            g1 <- receiver (group bulletMatch 1) ;;
            g2 <- receiver (group bulletMatch 2) ;;
            Ok (BulletLine {| text := trim g2;
                              level := (Z.of_nat (length g1) / 2)%Z |})
        | None =>
            if startsWith fence trimmed
            then
              let lang := trim (slice 3 trimmed) in
              Ok (FenceLine (if truthy lang then lang else js "text"))
            else Ok (TextLine trimmed)
        end
    end.

(** ... and continues accordingly. *)
Definition continue (k : lineKind) (rest : list str)
           (content : list ContentBlock) (currentBullets : list BulletItem)
  : result (list ContentBlock) :=
  match k with
  | Blank => contentLoop rest (flush currentBullets content) []
  | ImageLine alt src =>
      contentLoop rest (flush currentBullets content ++ [Image alt src]) []
  | BulletLine item => contentLoop rest content (currentBullets ++ [item])
  | FenceLine language =>
      codeLoop rest (flush currentBullets content) language []
  | TextLine t =>
      contentLoop rest (flush currentBullets content ++ [Text t]) []
  end.

(** The first line of a block that is not blank, if any: where the first
    loop of [parseSlideBlock] stops. *)
Definition firstNonBlank (lines : list str) : option str :=
  find (fun l => truthy (trim l)) lines.

(** The block has no heading for its slide: its first non-blank line, if
    any, does not match the title pattern. *)
Definition noSlideHeading (block : str) : Prop :=
  match firstNonBlank (splitOn LF block) with
  | Some l => matchRe false reTitle (trim l) = None
  | None => True
  end.

(** The number of white-space code units at the start of a line. *)
Fixpoint leadingWhiteSpace (s : str) : nat :=
  match s with
  | c :: s' => if isWhiteSpace c then S (leadingWhiteSpace s') else 0
  | [] => 0
  end.

(** A line on which the bullet pattern matches. *)
Definition bulletMatching (line : str) : Prop :=
  matchRe false reBullet line <> None.



(** The items that the lines of a bullet run give, one for one. *)
Definition itemsOf (run : list str) (items : list BulletItem) : Prop :=
  Forall2 (fun l it => classify l = Ok (BulletLine it)) run items.

Definition dash : N := ch "-".

(** A separator line between two segments of a text: three hyphens between
    the line terminators [a] and [b]. *)
Definition separatorLine (a b : N) : str := a :: dash :: dash :: dash :: [b].

(** The usual one, between line feeds. *)
Definition sepLine : str := js "\n---\n".

(** A first segment and further ones, each after a separator line with its
    two line terminators. *)
Fixpoint joinSegments (seg : str) (more : list (N * N * str)) : str :=
  match more with
  | [] => seg
  | (a, b, next) :: more' =>
      seg ++ separatorLine a b ++ joinSegments next more'
  end.

Definition lineTerminators (x : N * N * str) : Prop :=
  isLineTerminator (fst (fst x)) = true /\
  isLineTerminator (snd (fst x)) = true.

(** The separator pattern matches nowhere in the segment. *)
Definition noSeparator (seg : str) : Prop :=
  matchRe true reSeparator seg = None.

(** A line that opens or closes a code block. *)
Definition isFence (line : str) : bool := startsWith fence (trim line).

(** The language of the code block that the line opens. *)
Definition fenceLanguage (line : str) : str :=
  let lang := trim (slice 3 (trim line)) in
  if truthy lang then lang else js "text".

(** The invariants of the document: no empty bullet list, no empty
    paragraph, no negative level; and a code block has a language. *)
Definition wfBlock (b : ContentBlock) : Prop :=
  match b with
  | Bullets items => items <> [] /\ Forall (fun it => (0 <= level it)%Z) items
  | Text t => t <> []
  | Code language _ => language <> []
  | Image _ _ => True
  end.

Definition wfSlide (s : Slide) : Prop := Forall wfBlock (content s).

Definition wfDocument (d : Document) : Prop := Forall wfSlide (slides d).

(* ================================================================== *)
(** * The slide builder, [bin/build.js] *)
(* ================================================================== *)

(** The loop of [RegExp.prototype[Symbol.replace]] for a regex with the flag
    [g] and a replacement [repl] that holds no [$]: every match, found from
    left to right, is replaced; [skip] counts the code units of the last
    match that are still to be passed over, and after an empty match the
    search goes on one code unit further. *)
Fixpoint replaceAllLoop (m : bool) (r : regex) (repl : str)
         (prev : option N) (s : str) (skip : nat) : str :=
  match s with
  | [] =>
      match skip with
      | O => match exec m r prev [] [] [] with
             | Some _ => repl
             | None => []
             end
      | S _ => []
      end
  | c :: s' =>
      match skip with
      | S k => replaceAllLoop m r repl (Some c) s' k
      | O =>
          match exec m r prev s [] [] with
          | None => c :: replaceAllLoop m r repl (Some c) s' O
          | Some (rest, _) =>
              match length s - length rest with
              | O => repl ++ c :: replaceAllLoop m r repl (Some c) s' O
              | S k => repl ++ replaceAllLoop m r repl (Some c) s' k
              end
          end
      end
  end.

(** [s.replace(r, repl)] for a regex with the flag [g]. *)
Definition replaceAll (m : bool) (r : regex) (repl s : str) : str :=
  replaceAllLoop m r repl None s O.

Definition quot : N := 34.

(** [escapeHtml]: the five replacements, in the order of the source. *)
Definition escapeHtml (text : str) : str :=
  if negb (truthy text) then []
  else
    replaceAll false [One (Chr (ch "'"))] (js "&#039;")
      (replaceAll false [One (Chr quot)] (js "&quot;")
         (replaceAll false [One (Chr (ch ">"))] (js "&gt;")
            (replaceAll false [One (Chr (ch "<"))] (js "&lt;")
               (replaceAll false [One (Chr (ch "&"))] (js "&amp;") text)))).

(** [x || 0] for a number [x]. *)
Definition orZero (x : Z) : Z := if (x =? 0)%Z then 0%Z else x.

(** [s || ''] for a string [s]. *)
Definition orEmpty (s : str) : str := if truthy s then s else [].

(** The inner loop of [renderBullets] from [j = i + 1]: the items that
    follow, as long as they are deeper than [lvl]; and the items from the
    [j] at which it stops. *)
Fixpoint nestedItems (lvl : Z) (items : list BulletItem) : list BulletItem :=
  match items with
  | [] => []
  | it :: rest =>
      if (lvl <? orZero (level it))%Z then it :: nestedItems lvl rest else []
  end.

Fixpoint afterNested (lvl : Z) (items : list BulletItem) : list BulletItem :=
  match items with
  | [] => []
  | it :: rest =>
      if (lvl <? orZero (level it))%Z then afterNested lvl rest else items
  end.

(** [Number.isSafeInteger]: the integers below which the sum [level + 1] of
    the source, a sum of doubles, is the sum of the integers. *)
Definition safeInteger (x : Z) : Prop := (Z.abs x < 2 ^ 53)%Z.

(** [renderBullets(items, level)] and its [while] loop on [items.slice(i)].
    The recursion is on a list that is not a tail of [items], so the model
    counts calls down from [fuel]; [None] is a count that was too small.
    Levels are integers, as the parser writes them, and [lvl + 1] is the sum
    of the integers: it is the [level + 1] of the source as long as the
    levels are safe integers, and a statement that depends on the value of
    a deeper level says so. *)
Fixpoint renderBulletsFuel (fuel : nat) (items : list BulletItem) (lvl : Z)
         {struct fuel} : option str :=
  match items with
  | [] => Some []
  | _ =>
      match fuel with
      | O => None
      | S fuel' =>
          match bulletsLoop fuel' items lvl with
          | Some html => Some (js "<ul>" ++ html ++ js "</ul>")
          | None => None
          end
      end
  end
with bulletsLoop (fuel : nat) (items : list BulletItem) (lvl : Z)
         {struct fuel} : option str :=
  match items with
  | [] => Some []
  | item :: rest =>
      match fuel with
      | O => None
      | S fuel' =>
          let itemLevel := orZero (level item) in
          if (itemLevel =? lvl)%Z
          then
            let nested := nestedItems lvl rest in
            match nested with
            | [] =>
                match bulletsLoop fuel' rest lvl with
                | Some more =>
                    Some (js "<li>" ++ escapeHtml (text item)
                             ++ js "</li>" ++ more)
                | None => None
                end
            | _ =>
                match renderBulletsFuel fuel' nested (lvl + 1),
                      bulletsLoop fuel' (afterNested lvl rest) lvl with
                | Some inner, Some more =>
                    Some (js "<li>" ++ escapeHtml (text item) ++ inner
                             ++ js "</li>" ++ more)
                | _, _ => None
                end
            end
          else bulletsLoop fuel' rest lvl
      end
  end.

(** Calls enough for a list: each call is on a shorter list. *)
Definition renderBullets (items : list BulletItem) (lvl : Z) : option str :=
  renderBulletsFuel (2 * length items + 1) items lvl.

(** The loop with calls enough for its list. *)
Definition bulletsLoopOf (items : list BulletItem) (lvl : Z) : option str :=
  bulletsLoop (2 * length items) items lvl.

(** The helper [renderContent]; its [default] case is for a type that the
    document does not have. *)
Definition renderContent (contentItem : ContentBlock) : option str :=
  match contentItem with
  | Bullets items => renderBullets items 0
  | Text text => Some (js "<p>" ++ escapeHtml text ++ js "</p>")
  | Image alt src =>
      Some (js "<img src=" ++ [quot] ++ escapeHtml src ++ [quot]
               ++ js " alt=" ++ [quot] ++ escapeHtml (orEmpty alt) ++ [quot]
               ++ js " />")
  | Code language code =>
      Some (js "<pre><code class=" ++ [quot] ++ js "language-"
               ++ escapeHtml language ++ [quot] ++ js ">"
               ++ escapeHtml code ++ js "</code></pre>")
  end.

(** ** Notions used in the statements about the builder *)

(** What [escapeHtml] makes of one code unit. *)
Definition escapeChar (c : N) : str :=
  if (c =? ch "&")%N then js "&amp;"
  else if (c =? ch "<")%N then js "&lt;"
  else if (c =? ch ">")%N then js "&gt;"
  else if (c =? quot)%N then js "&quot;"
  else if (c =? ch "'")%N then js "&#039;"
  else [c].

(** The code units that delimit tags and attribute values. *)
Definition isMarkup (c : N) : bool :=
  (c =? ch "<")%N || (c =? ch ">")%N || (c =? quot)%N || (c =? ch "'")%N.

(** The block with every text of the outline emptied. *)
Definition eraseItem (it : BulletItem) : BulletItem :=
  {| text := []; level := level it |}.

Definition eraseText (b : ContentBlock) : ContentBlock :=
  match b with
  | Bullets items => Bullets (map eraseItem items)
  | Text _ => Text []
  | Image _ _ => Image [] []
  | Code _ _ => Code [] []
  end.

(** A nested list: an item and the items under it. *)
#[warnings="-register-all"]
Inductive bulletTree : Type :=
| Node (item : BulletItem) (children : list bulletTree).

Fixpoint preorder (t : bulletTree) : list BulletItem :=
  match t with
  | Node item children => item :: flat_map preorder children
  end.

(** The HTML of a nested list. *)
Fixpoint printTree (t : bulletTree) : str :=
  match t with
  | Node item children =>
      js "<li>" ++ escapeHtml (text item)
         ++ match children with
            | [] => []
            | _ => js "<ul>" ++ flat_map printTree children ++ js "</ul>"
            end
         ++ js "</li>"
  end.

(** Every item of the tree is at the level of its depth, from [lvl]. *)
Fixpoint atDepth (lvl : Z) (t : bulletTree) : Prop :=
  match t with
  | Node item children =>
      level item = lvl /\
      (fix all (ts : list bulletTree) : Prop :=
         match ts with
         | [] => True
         | t' :: ts' => atDepth (lvl + 1) t' /\ all ts'
         end) children
  end.

(** No item is more than one level deeper than the item before it. *)
Fixpoint stepsOk (prev : Z) (items : list BulletItem) : Prop :=
  match items with
  | [] => True
  | it :: rest => (level it <= prev + 1)%Z /\ stepsOk (level it) rest
  end.

(** A list that starts at [lvl], never goes above it and never skips a
    level on the way down. *)
Definition wellNested (lvl : Z) (items : list BulletItem) : Prop :=
  match items with
  | [] => True
  | it :: rest =>
      level it = lvl /\ Forall (fun x => (lvl <= level x)%Z) rest /\
      stepsOk lvl rest
  end.

(** ** Notions used in the further statements about the parser *)

(** White space, at least one code unit of it. *)
Definition whiteRun (ws : str) : Prop :=
  ws <> [] /\ forallb isWhiteSpace ws = true.

(** No line terminator: the text stays on its line. *)
Definition oneLine (t : str) : Prop :=
  Forall (fun c => isLineTerminator c = false) t.

(** The text of a heading: not empty, trimmed, on one line. *)
Definition plainText (t : str) : Prop :=
  t <> [] /\ trim t = t /\ oneLine t.

(** The line of an image: [!], the alternative text in brackets, the
    source in parentheses. *)
Definition imageLine (alt src : str) : str :=
  ch "!" :: ch "[" :: alt ++ ch "]" :: ch "(" :: src ++ [ch ")"].

(** The greedy quantifier over [k] stops at the head of [s]. *)
Definition stops (k : cclass) (s : str) : Prop :=
  match s with
  | [] => True
  | c :: _ => cmatch k c = false
  end.

(** The lines of a title and of a subtitle, and the block of the two. *)
Definition titleLine (ws t : str) : str := ch "#" :: ws ++ t.

Definition subtitleLine (ws s : str) : str := ch "#" :: ch "#" :: ws ++ s.

Definition titleBlock (ws1 t ws2 s : str) : str :=
  titleLine ws1 t ++ LF :: subtitleLine ws2 s.

(* ================================================================== *)
(** * Facts about the string operations *)
(* ================================================================== *)

Arguments isWhiteSpace : simpl never.
Arguments isLineTerminator : simpl never.

Section StringFacts.

Lemma truthy_nonempty (s : str) : truthy s = true <-> s <> [].
Proof. destruct s; unfold truthy; simpl; split; intros H; congruence. Qed.

Lemma truthy_false (s : str) : truthy s = false <-> s = [].
Proof. destruct s; unfold truthy; simpl; split; intros H; congruence. Qed.

Lemma lineTerminator_whiteSpace (c : N) :
  isLineTerminator c = true -> isWhiteSpace c = true.
Proof.
  unfold isLineTerminator. rewrite !orb_true_iff, !N.eqb_eq.
  intros [[[-> | ->] | ->] | ->]; reflexivity.
Qed.

Lemma trimEnd_nonspace (c : N) (s : str) :
  isWhiteSpace c = false -> trimEnd (c :: s) = c :: trimEnd s.
Proof. intros H. simpl. rewrite H. destruct (trimEnd s); reflexivity. Qed.

Lemma trimEnd_nil (s : str) :
  trimEnd s = [] <-> forallb isWhiteSpace s = true.
Proof.
  induction s as [|c s [IH1 IH2]]; simpl; [tauto|].
  destruct (trimEnd s) eqn:E.
  - rewrite (IH1 eq_refl), andb_true_r.
    destruct (isWhiteSpace c); split; congruence.
  - split; [discriminate|]. intros H.
    apply andb_true_iff in H as [_ H]. apply IH2 in H. discriminate.
Qed.

Lemma trimStart_head (s : str) (c : N) (t : str) :
  trimStart s = c :: t -> isWhiteSpace c = false.
Proof.
  induction s as [|a s IH]; simpl; [discriminate|].
  destruct (isWhiteSpace a) eqn:E; [exact IH|].
  intros H; injection H as -> _; exact E.
Qed.

(** A string is its leading white space followed by its [trimStart]. *)
Lemma trimStart_split (s : str) :
  exists ws, s = ws ++ trimStart s /\ forallb isWhiteSpace ws = true.
Proof.
  induction s as [|c s (ws & E & H)]; simpl.
  - exists []; auto.
  - destruct (isWhiteSpace c) eqn:W.
    + exists (c :: ws); simpl; rewrite W, H; split; [f_equal; exact E | reflexivity].
    + exists []; auto.
Qed.

Lemma trim_nil (s : str) : trim s = [] <-> forallb isWhiteSpace s = true.
Proof.
  unfold trim. rewrite trimEnd_nil.
  destruct (trimStart_split s) as (ws & E & H).
  split; intros A.
  - rewrite E, forallb_app, H, A; reflexivity.
  - rewrite E, forallb_app in A. apply andb_true_iff in A; tauto.
Qed.

(** A non-empty [trim] starts at the first code unit that is not white
    space. *)
Lemma trim_cons (s : str) (c : N) (t : str) :
  trim s = c :: t ->
  exists ws rest, s = ws ++ c :: rest /\ forallb isWhiteSpace ws = true
                  /\ isWhiteSpace c = false /\ t = trimEnd rest.
Proof.
  unfold trim. intros H.
  destruct (trimStart_split s) as (ws & E & W).
  destruct (trimStart s) as [|a r] eqn:T; [discriminate|].
  pose proof (trimStart_head _ _ _ T) as Ha.
  rewrite trimEnd_nonspace in H by exact Ha.
  injection H as -> <-. exists ws, r; auto.
Qed.

Lemma trim_of_nonspace (c : N) (s : str) :
  isWhiteSpace c = false -> trim (c :: s) = c :: trimEnd s.
Proof.
  intros H. unfold trim. simpl. rewrite H. apply trimEnd_nonspace, H.
Qed.

Lemma trimStart_app_space (ws s : str) :
  forallb isWhiteSpace ws = true -> trimStart (ws ++ s) = trimStart s.
Proof.
  induction ws as [|c ws IH]; simpl; [reflexivity|].
  intros H. apply andb_true_iff in H as [-> H]. auto.
Qed.

Lemma trimEnd_app_space (s ws : str) :
  forallb isWhiteSpace ws = true -> trimEnd (s ++ ws) = trimEnd s.
Proof.
  intros H. induction s as [|c s IH]; simpl.
  - apply trimEnd_nil, H.
  - rewrite IH. reflexivity.
Qed.

Lemma trimStart_trimEnd (s : str) : trimStart (trimEnd s) = trimEnd (trimStart s).
Proof.
  induction s as [|c s IH]; [reflexivity|].
  destruct (isWhiteSpace c) eqn:W.
  - simpl. rewrite W. destruct (trimEnd s) eqn:E.
    + exact IH.
    + simpl. rewrite W. exact IH.
  - rewrite (trimEnd_nonspace c s W). simpl. rewrite W.
    symmetry. apply trimEnd_nonspace, W.
Qed.

(** White space around a string does not change its [trim]. *)
Lemma trim_padded (a s b : str) :
  forallb isWhiteSpace a = true -> forallb isWhiteSpace b = true ->
  trim (a ++ s ++ b) = trim s.
Proof.
  intros Ha Hb. unfold trim.
  rewrite trimStart_app_space by exact Ha.
  rewrite <- !trimStart_trimEnd, trimEnd_app_space by exact Hb.
  reflexivity.
Qed.

Lemma fence_eq : fence = [96; 96; 96]%N.
Proof. reflexivity. Qed.

Lemma startsWith_fence (s : str) :
  startsWith fence s = true <-> exists t, s = fence ++ t.
Proof.
  rewrite fence_eq. split.
  - destruct s as [|a [|b [|c t]]]; cbn [startsWith];
      rewrite ?andb_false_r; try discriminate.
    rewrite !andb_true_iff, !N.eqb_eq. intros (<- & <- & <- & _).
    exists t; reflexivity.
  - intros (t & ->). reflexivity.
Qed.

End StringFacts.

(* ================================================================== *)
(** * Facts about the matcher *)
(* ================================================================== *)

Section MatcherFacts.

Variable A : Type.

Lemma descend_some (n lo : nat) (try : nat -> option A) (r : A) :
  descend n lo try = Some r -> exists j, j <= n /\ try (lo + j) = Some r.
Proof.
  induction n as [|n IH]; simpl.
  - destruct (try (lo + 0)) eqn:E; [|discriminate].
    intros H; exists 0; split; [lia | congruence].
  - destruct (try (lo + S n)) eqn:E.
    + intros H; exists (S n); split; [lia | congruence].
    + intros H. destruct (IH H) as (j & Hj & T). exists j; split; [lia | exact T].
Qed.

End MatcherFacts.

Section SearchFacts.

(** A pattern that starts with [^] and has no flag [m] matches at index 0
    or nowhere. *)
Lemma search_bol_later (r : regex) (c : N) (s skipped : str) :
  search false (Bol :: r) (Some c) s skipped = None.
Proof.
  revert c skipped. induction s as [|a s IH]; intros c skipped; simpl; auto.
Qed.

Lemma matchRe_anchored (r : regex) (s : str) :
  matchRe false (Bol :: r) s =
  match exec false r None s [] [] with
  | Some (rest, caps) => Some (Found [] rest caps)
  | None => None
  end.
Proof.
  unfold matchRe. destruct s as [|c s]; cbn [search exec atBol].
  - destruct (exec false r None [] [] []) as [[rest caps]|]; reflexivity.
  - destruct (exec false r None (c :: s) [] []) as [[rest caps]|];
      [reflexivity | apply search_bol_later].
Qed.

(** A successful search is a successful match at some position. *)
Lemma search_exec (m : bool) (r : regex) (s : str) :
  forall prev skipped f,
    search m r prev s skipped = Some f ->
    exists prev' s', exec m r prev' s' [] [] = Some (after f, groups f).
Proof.
  induction s as [|c s IH]; intros prev skipped f; cbn [search].
  - destruct (exec m r prev [] [] []) as [[rest caps]|] eqn:E; [|discriminate].
    intros H; injection H as <-. exists prev, []. exact E.
  - destruct (exec m r prev (c :: s) [] []) as [[rest caps]|] eqn:E.
    + intros H; injection H as <-. exists prev, (c :: s). exact E.
    + apply IH.
Qed.

Lemma search_none (m : bool) (r : regex) (s : str) :
  forall prev skipped,
    search m r prev s skipped = None ->
    exec m r prev s [] [] = None /\
    match s with
    | [] => True
    | c :: s' => search m r (Some c) s' (skipped ++ [c]) = None
    end.
Proof.
  intros prev skipped. destruct s as [|c s]; cbn [search];
    destruct (exec m r prev _ [] []) as [[rest caps]|]; try discriminate; auto.
Qed.

(** Whether the search fails does not depend on what was skipped. *)
Lemma search_none_skipped (m : bool) (r : regex) (s : str) :
  forall prev sk sk',
    search m r prev s sk = None -> search m r prev s sk' = None.
Proof.
  induction s as [|c s IH]; intros prev sk sk'; cbn [search];
    destruct (exec m r prev _ [] []) as [[rest caps]|]; try discriminate; eauto.
Qed.

Lemma lookup_keys (g : nat) (cs : captures) :
  isSome (lookup g cs) = existsb (fun k => Nat.eqb k g) (map fst cs).
Proof.
  unfold lookup. induction cs as [|[h x] cs IH]; simpl; [reflexivity|].
  destruct (Nat.eqb h g); simpl; [reflexivity | exact IH].
Qed.

Lemma lookup_cons (g h : nat) (x : str) (cs : captures) :
  lookup g ((h, x) :: cs) = if Nat.eqb h g then Some x else lookup g cs.
Proof. unfold lookup; simpl. destruct (Nat.eqb h g); reflexivity. Qed.

(** Every group that the pattern closes is captured by a match: there is no
    alternation and no quantified group that could leave it out. *)
Lemma exec_defines (m : bool) (g : nat) (r : regex) :
  forall prev s opened caps rest caps',
    exec m r prev s opened caps = Some (rest, caps') ->
    isSome (lookup g caps) || closes r (map fst opened) g = true ->
    isSome (lookup g caps') = true.
Proof.
  induction r as [|n r IH]; intros prev s opened caps rest caps' H D.
  - injection H as _ <-. cbn in D. rewrite orb_false_r in D. exact D.
  - destruct n; cbn [exec closes] in H, D.
    + destruct (atBol m prev); [eauto | discriminate].
    + destruct (atEol m s); [eauto | discriminate].
    + destruct s as [|c s]; [discriminate|].
      destruct (cmatch k c); [eauto | discriminate].
    + destruct (runLength k hi s <? lo); [discriminate|].
      apply descend_some in H as (j & _ & H). eauto.
    + eapply IH; [exact H | exact D].
    + destruct (lookup g0 opened) as [o|] eqn:L.
      * eapply IH; [exact H|]. rewrite lookup_cons.
        destruct (Nat.eqb g0 g); [reflexivity | exact D].
      * eapply IH; [exact H|].
        assert (K : isSome (lookup g0 opened) = false) by (rewrite L; reflexivity).
        rewrite lookup_keys in K. rewrite K, andb_false_r in D. exact D.
Qed.

Lemma matchRe_group (m : bool) (r : regex) (s : str) (f : found) (g : nat) :
  matchRe m r s = Some f -> closes r [] g = true ->
  exists v, group f g = Some v.
Proof.
  intros H C. apply search_exec in H as (prev & s' & H).
  pose proof (exec_defines m g r _ _ _ _ _ _ H) as D. cbn [map] in D.
  rewrite C, orb_true_r in D. specialize (D eq_refl).
  unfold group. destruct (lookup g (groups f)) as [v|]; [eauto | discriminate].
Qed.

End SearchFacts.

Section PatternFacts.

Lemma runLength_cons (k : cclass) (c : N) (s : str) :
  runLength k None (c :: s) =
  if cmatch k c then S (runLength k None s) else 0.
Proof. reflexivity. Qed.

Lemma runLength_prefix (k : cclass) (s : str) :
  forall j, j <= runLength k None s ->
            forallb (cmatch k) (firstn j s) = true /\ j <= length s.
Proof.
  induction s as [|c s IH]; intros j H.
  - cbn in H. replace j with 0 by lia. split; [reflexivity | simpl; lia].
  - rewrite runLength_cons in H. destruct j as [|j]; [split; [reflexivity | simpl; lia]|].
    destruct (cmatch k c) eqn:E; [|lia].
    destruct (IH j ltac:(lia)) as [F L].
    cbn [firstn forallb length]. rewrite E, F. split; [reflexivity | lia].
Qed.

Lemma firstn_length_skipn (j : nat) (s : str) :
  j <= length s -> firstn (length s - length (skipn j s)) s = firstn j s.
Proof. intros H. rewrite length_skipn. f_equal. lia. Qed.

(** A match of the bullet pattern: the line is white space, then [-] or [*];
    group 1 is that white space, all of it. *)
Lemma bullet_match (line : str) (f : found) :
  matchRe false reBullet line = Some f ->
  exists ws c rest t,
    line = ws ++ c :: rest /\ forallb isWhiteSpace ws = true /\
    (c = ch "-" \/ c = ch "*") /\
    group f 1 = Some ws /\ group f 2 = Some t.
Proof.
  unfold reBullet. rewrite matchRe_anchored.
  destruct (exec false _ None line [] []) as [[rest caps]|] eqn:E; [|discriminate].
  intros H; injection H as <-. unfold group; cbn [groups].
  unfold star, plus in E.
  cbn [exec lookup find fst snd option_map Nat.eqb] in E.
  destruct (runLength Space None line <? 0); [discriminate|].
  apply descend_some in E as (j & Hj & E). cbn [Nat.add] in E.
  destruct (skipn j line) as [|c s'] eqn:Sk; [discriminate|].
  destruct (cmatch (OneOf [ch "-"; ch "*"]) c) eqn:C; [|discriminate].
  destruct (runLength Space None s' <? 1); [discriminate|].
  apply descend_some in E as (j0 & _ & E).
  destruct (runLength Dot None _ <? 1); [discriminate|].
  apply descend_some in E as (j1 & _ & E).
  destruct (atEol false _); [|discriminate].
  injection E as <- <-.
  destruct (runLength_prefix Space line j ltac:(lia)) as [W L].
  exists (firstn j line), c, s'. eexists. repeat split.
  - rewrite <- Sk. symmetry. apply firstn_skipn.
  - exact W.
  - cbn in C. rewrite orb_false_r, orb_true_iff, !N.eqb_eq in C. exact C.
  - cbn [lookup find fst snd option_map Nat.eqb].
    change (S (length s')) with (length (c :: s')). rewrite <- Sk.
    rewrite firstn_length_skipn by exact L. reflexivity.
Qed.

End PatternFacts.

Section LoopFacts.

Lemma contentLoop_cons (line : str) (rest : list str)
      (content : list ContentBlock) (cur : list BulletItem) :
  contentLoop (line :: rest) content cur =
  (k <- classify line ;; continue k rest content cur).
Proof.
  cbn [contentLoop]. unfold classify.
  destruct (negb (truthy (trim line))); [reflexivity|].
  destruct (matchRe false reImage (trim line)) as [im|].
  - destruct (stored (group im 1)); [|reflexivity].
    destruct (stored (group im 2)); reflexivity.
  - destruct (matchRe false reBullet line) as [bm|].
    + destruct (receiver (group bm 1)); [|reflexivity].
      destruct (receiver (group bm 2)); reflexivity.
    + destruct (startsWith fence (trim line)); reflexivity.
Qed.

Lemma codeLoop_cons (l : str) (rest : list str)
      (content : list ContentBlock) (language : str) (codeLines : list str) :
  codeLoop (l :: rest) content language codeLines =
  if isFence l
  then contentLoop rest (content ++ [Code language (join [LF] codeLines)]) []
  else codeLoop rest content language (codeLines ++ [l]).
Proof. reflexivity. Qed.

(** No line makes an iteration throw. *)
Lemma classify_ok (line : str) : exists k, classify line = Ok k.
Proof.
  unfold classify.
  destruct (negb (truthy (trim line))); [eauto|].
  destruct (matchRe false reImage (trim line)) as [im|] eqn:I.
  - destruct (matchRe_group _ _ _ _ 1 I eq_refl) as (a & ->).
    destruct (matchRe_group _ _ _ _ 2 I eq_refl) as (b & ->).
    cbn. eauto.
  - destruct (matchRe false reBullet line) as [bm|] eqn:B.
    + destruct (matchRe_group _ _ _ _ 1 B eq_refl) as (a & ->).
      destruct (matchRe_group _ _ _ _ 2 B eq_refl) as (b & ->).
      cbn. eauto.
    + destruct (startsWith fence (trim line)); eauto.
Qed.

Lemma image_head (s : str) (f : found) :
  matchRe false reImage s = Some f -> exists t, s = ch "!" :: t.
Proof.
  unfold reImage. rewrite matchRe_anchored.
  destruct s as [|c s]; [discriminate|]. cbn [exec].
  destruct (cmatch (Chr (ch "!")) c) eqn:C; [|discriminate].
  apply N.eqb_eq in C. subst c. eauto.
Qed.

Lemma leadingWhiteSpace_app (ws : str) (c : N) (rest : str) :
  forallb isWhiteSpace ws = true -> isWhiteSpace c = false ->
  leadingWhiteSpace (ws ++ c :: rest) = length ws.
Proof.
  intros W C. induction ws as [|a ws IH]; simpl.
  - rewrite C; reflexivity.
  - simpl in W. apply andb_true_iff in W as [-> W]. f_equal; auto.
Qed.

Lemma bullet_marker_not_space (c : N) :
  c = ch "-" \/ c = ch "*" -> isWhiteSpace c = false /\ c <> ch "!" /\ c <> 96%N.
Proof. intros [-> | ->]; repeat split; discriminate. Qed.

(** A line on which the bullet pattern matches is not blank, and its first
    code unit after the leading white space is [-] or [*]. *)
Lemma bullet_match_trim (line : str) (f : found) :
  matchRe false reBullet line = Some f ->
  exists c t g2,
    trim line = c :: t /\ (c = ch "-" \/ c = ch "*") /\
    group f 1 = Some (firstn (leadingWhiteSpace line) line) /\
    length (firstn (leadingWhiteSpace line) line) = leadingWhiteSpace line /\
    group f 2 = Some g2.
Proof.
  intros H. destruct (bullet_match _ _ H) as (ws & c & rest & t & E & W & C & G1 & G2).
  destruct (bullet_marker_not_space _ C) as (S & _).
  exists c, (trimEnd rest), t. subst line.
  rewrite (leadingWhiteSpace_app _ _ _ W S).
  rewrite firstn_app, Nat.sub_diag, firstn_all, app_nil_r.
  repeat split; auto.
  unfold trim. rewrite trimStart_app_space by exact W.
  exact (trim_of_nonspace c rest S).
Qed.

Lemma classify_blank (line : str) :
  trim line = [] -> classify line = Ok Blank.
Proof. intros H. unfold classify. rewrite H. reflexivity. Qed.

(** A bullet-matching line is taken as a bullet whose level is half the
    number of its leading white-space code units. *)
Lemma classify_bullet (line : str) :
  bulletMatching line ->
  exists t,
    classify line =
    Ok (BulletLine {| text := t;
                      level := (Z.of_nat (leadingWhiteSpace line) / 2)%Z |}).
Proof.
  unfold bulletMatching. intros H.
  destruct (matchRe false reBullet line) as [f|] eqn:B; [clear H | congruence].
  destruct (bullet_match_trim _ _ B) as (c & t & g2 & T & C & G1 & L & G2).
  destruct (bullet_marker_not_space _ C) as (_ & NI & _).
  unfold classify. rewrite T, B, G1, G2. cbn [truthy isEmpty negb].
  destruct (matchRe false reImage (c :: t)) as [im|] eqn:I.
  - apply image_head in I as (t' & I). congruence.
  - cbn [receiver bind]. rewrite L. eauto.
Qed.

(** A line whose trimmed form starts with three backticks opens a code
    block: it is neither blank nor an image nor a bullet. *)
Lemma classify_fence (line : str) :
  isFence line = true -> classify line = Ok (FenceLine (fenceLanguage line)).
Proof.
  unfold isFence, fenceLanguage. intros F.
  pose proof F as F'. apply startsWith_fence in F' as (t & T).
  rewrite fence_eq in T. cbn [app] in T.
  assert (TT : truthy (trim line) = true) by (rewrite T; reflexivity).
  unfold classify. rewrite TT, F. cbn [negb].
  destruct (matchRe false reImage (trim line)) as [im|] eqn:I.
  { apply image_head in I as (t' & I). rewrite T in I. discriminate. }
  destruct (matchRe false reBullet line) as [f|] eqn:B; [|reflexivity].
  destruct (bullet_match_trim _ _ B) as (c & t' & g2 & T' & C & _).
  destruct (bullet_marker_not_space _ C) as (_ & _ & NF).
  rewrite T in T'. injection T' as T' _. congruence.
Qed.

Lemma classify_inv (line : str) (k : lineKind) :
  classify line = Ok k ->
  match k with
  | Blank => trim line = []
  | ImageLine _ _ => trim line <> []
  | BulletLine it =>
      bulletMatching line /\
      level it = (Z.of_nat (leadingWhiteSpace line) / 2)%Z
  | FenceLine l => isFence line = true /\ l = fenceLanguage line
  | TextLine t => t = trim line /\ t <> [] /\ isFence line = false
  end.
Proof.
  unfold classify.
  destruct (truthy (trim line)) eqn:T; cbn [negb].
  2:{ intros H; injection H as <-. apply truthy_false, T. }
  apply truthy_nonempty in T.
  destruct (matchRe false reImage (trim line)) as [im|] eqn:I.
  { destruct (stored (group im 1)); [|discriminate].
    destruct (stored (group im 2)); [|discriminate].
    cbn [bind]. intros H; injection H as <-. exact T. }
  destruct (matchRe false reBullet line) as [f|] eqn:B.
  { destruct (bullet_match_trim _ _ B) as (c & t & g2 & _ & _ & G1 & L & G2).
    rewrite G1, G2. cbn [receiver bind]. intros H; injection H as <-.
    cbn [level]. rewrite L. split; [unfold bulletMatching; congruence | reflexivity]. }
  unfold isFence, fenceLanguage.
  destruct (startsWith fence (trim line)) eqn:F; intros H; injection H as <-; auto.
Qed.

Lemma fenceLanguage_nonempty (line : str) : fenceLanguage line <> [].
Proof.
  unfold fenceLanguage. destruct (truthy _) eqn:T.
  - apply truthy_nonempty, T.
  - discriminate.
Qed.

Lemma flush_app (cur : list BulletItem) (content : list ContentBlock) :
  flush cur content = content ++ flush cur [].
Proof. destruct cur; simpl; [rewrite app_nil_r|]; reflexivity. Qed.

Lemma flush_wf (cur : list BulletItem) (content : list ContentBlock) :
  Forall wfBlock content -> Forall (fun it => (0 <= level it)%Z) cur ->
  Forall wfBlock (flush cur content).
Proof.
  intros C B. destruct cur as [|b cur]; [exact C|].
  apply Forall_app; split; [exact C|].
  constructor; [|constructor]. split; [discriminate | exact B].
Qed.

(** Both loops return, whatever the lines. *)
Lemma loops_ok (lines : list str) :
  (forall content cur, exists out, contentLoop lines content cur = Ok out) /\
  (forall content language codeLines,
      exists out, codeLoop lines content language codeLines = Ok out).
Proof.
  induction lines as [|l rest [IHc IHk]]; split; intros.
  - eexists; reflexivity.
  - eexists; reflexivity.
  - rewrite contentLoop_cons. destruct (classify_ok l) as (k & ->).
    cbn [bind]. destruct k; cbn [continue]; auto.
  - rewrite codeLoop_cons. destruct (isFence l); auto.
Qed.

(** What the loops return extends the content they were given: the pending
    bullets, with those that follow, come first. *)
Lemma loops_shape (lines : list str) :
  (forall content cur out,
      contentLoop lines content cur = Ok out ->
      exists more rest, out = flush (cur ++ more) content ++ rest) /\
  (forall content language codeLines out,
      codeLoop lines content language codeLines = Ok out ->
      exists code rest, out = content ++ Code language code :: rest).
Proof.
  induction lines as [|l rest [IHc IHk]]; split; intros * H.
  - injection H as <-. exists [], []. rewrite !app_nil_r. reflexivity.
  - injection H as <-. eauto.
  - rewrite contentLoop_cons in H. destruct (classify l) as [k|]; [|discriminate].
    cbn [bind] in H. destruct k; cbn [continue] in H.
    + apply IHc in H as (more & suffix & ->). exists [], (flush more [] ++ suffix).
      rewrite app_nil_r. cbn [app]. rewrite (flush_app more), <- app_assoc. reflexivity.
    + apply IHc in H as (more & suffix & ->).
      exists [], (Image alt src :: flush more [] ++ suffix).
      rewrite app_nil_r. cbn [app]. rewrite (flush_app more), <- !app_assoc. reflexivity.
    + apply IHc in H as (more & suffix & ->). exists (item :: more), suffix.
      rewrite <- app_assoc. reflexivity.
    + apply IHk in H as (code & suffix & ->). exists [], (Code language code :: suffix).
      rewrite app_nil_r. reflexivity.
    + apply IHc in H as (more & suffix & ->).
      exists [], (Text text0 :: flush more [] ++ suffix).
      rewrite app_nil_r. cbn [app]. rewrite (flush_app more), <- !app_assoc. reflexivity.
  - rewrite codeLoop_cons in H. destruct (isFence l).
    + apply IHc in H as (more & suffix & ->). cbn [app].
      exists (join [LF] codeLines), (flush more [] ++ suffix).
      rewrite (flush_app more), <- !app_assoc. reflexivity.
    + apply IHk in H. exact H.
Qed.

(** The loops keep the invariants of the document. *)
Lemma loops_wf (lines : list str) :
  (forall content cur out,
      contentLoop lines content cur = Ok out ->
      Forall wfBlock content -> Forall (fun it => (0 <= level it)%Z) cur ->
      Forall wfBlock out) /\
  (forall content language codeLines out,
      codeLoop lines content language codeLines = Ok out ->
      Forall wfBlock content -> language <> [] ->
      Forall wfBlock out).
Proof.
  induction lines as [|l rest [IHc IHk]]; split; intros * H C B.
  - injection H as <-. apply flush_wf; assumption.
  - injection H as <-. apply Forall_app; split; [exact C|]. repeat constructor. exact B.
  - rewrite contentLoop_cons in H. destruct (classify l) as [k|] eqn:K; [|discriminate].
    cbn [bind] in H. apply classify_inv in K. destruct k; cbn [continue] in H.
    + eapply IHc; [exact H | apply flush_wf; assumption | constructor].
    + eapply IHc; [exact H | | constructor].
      apply Forall_app; split; [apply flush_wf; assumption | repeat constructor].
    + eapply IHc; [exact H | exact C |].
      apply Forall_app; split; [exact B|]. constructor; [|constructor].
      destruct K as [_ ->]. apply Z.div_pos; lia.
    + eapply IHk; [exact H | apply flush_wf; assumption |].
      destruct K as [_ ->]. apply fenceLanguage_nonempty.
    + eapply IHc; [exact H | | constructor].
      apply Forall_app; split; [apply flush_wf; assumption|].
      constructor; [|constructor]. apply K.
  - rewrite codeLoop_cons in H. destruct (isFence l).
    + eapply IHc; [exact H | | constructor].
      apply Forall_app; split; [exact C|]. repeat constructor. exact B.
    + eapply IHk; eassumption.
Qed.

End LoopFacts.

Section SlideFacts.

Lemma parseSlideBlock_eq (block : str) :
  parseSlideBlock block =
  (content <- contentLoop (snd (findTitle (splitOn LF block))) [] [] ;;
   Ok {| slide_title := fst (findTitle (splitOn LF block)); content := content |}).
Proof.
  unfold parseSlideBlock. destruct (findTitle (splitOn LF block)); reflexivity.
Qed.

Lemma parseSlideBlock_ok (block : str) :
  exists s, parseSlideBlock block = Ok s /\ wfSlide s.
Proof.
  rewrite parseSlideBlock_eq.
  destruct (proj1 (loops_ok (snd (findTitle (splitOn LF block)))) [] []) as (out & E).
  rewrite E. cbn [bind]. eexists; split; [reflexivity|].
  unfold wfSlide; cbn [content].
  eapply (proj1 (loops_wf _)); [exact E | constructor | constructor].
Qed.

Lemma parseSlides_ok (blocks : list str) :
  exists ss, parseSlides blocks = Ok ss /\
             Forall2 (fun b s => parseSlideBlock b = Ok s) blocks ss /\
             Forall wfSlide ss.
Proof.
  induction blocks as [|b bs (ss & E & F & W)]; cbn [parseSlides].
  - exists []; repeat split; constructor.
  - destruct (parseSlideBlock_ok b) as (s & Es & Ws).
    rewrite Es, E. cbn [bind]. exists (s :: ss).
    repeat split; constructor; assumption.
Qed.

Lemma headingText_ok (m : bool) (r : regex) (b : str) :
  closes r [] 1 = true -> exists t, headingText (matchRe m r b) = Ok t.
Proof.
  intros C. unfold headingText.
  destruct (matchRe m r b) as [f|] eqn:M; [|eauto].
  destruct (matchRe_group _ _ _ _ 1 M C) as (v & ->). cbn. eauto.
Qed.

(** [parseOutline] on a text that has a block. *)
Lemma parseOutline_blocks (text firstBlock : str) (others : list str) :
  blocksOf text = firstBlock :: others ->
  exists t st ss,
    headingText (matchRe true reTitle firstBlock) = Ok t /\
    headingText (matchRe true reSubtitle firstBlock) = Ok st /\
    parseSlides (if isTitleOnly firstBlock then others
                 else firstBlock :: others) = Ok ss /\
    Forall wfSlide ss /\
    parseOutline text =
    Ok {| title := t; subtitle := st; theme := js "minimal";
          timing_default := 5; slides := ss |}.
Proof.
  intros B. unfold parseOutline. rewrite B. cbn [tl].
  destruct (headingText_ok true reTitle firstBlock eq_refl) as (t & ->).
  destruct (headingText_ok true reSubtitle firstBlock eq_refl) as (st & ->).
  destruct (parseSlides_ok (if isTitleOnly firstBlock then others
                            else firstBlock :: others)) as (ss & E & _ & W).
  rewrite E. cbn [bind]. exists t, st, ss. auto.
Qed.

Lemma title_head (s : str) (f : found) :
  matchRe false reTitle s = Some f -> exists t, s = ch "#" :: t.
Proof.
  unfold reTitle. rewrite matchRe_anchored.
  destruct s as [|c s]; [discriminate|]. cbn [exec].
  destruct (cmatch (Chr (ch "#")) c) eqn:C; [|discriminate].
  apply N.eqb_eq in C. subst c. eauto.
Qed.

Lemma findTitle_none (lines : list str) :
  match firstNonBlank lines with
  | Some l => matchRe false reTitle (trim l) = None
  | None => True
  end ->
  fst (findTitle lines) = [].
Proof.
  unfold firstNonBlank. induction lines as [|l rest IH]; cbn [find findTitle]; [reflexivity|].
  destruct (matchRe false reTitle (trim l)) as [f|] eqn:M; cbn [isSome].
  - destruct (title_head _ _ M) as (t & T).
    assert (N : truthy (trim l) = true) by (rewrite T; reflexivity).
    rewrite N. intros H. congruence.
  - destruct (truthy (trim l)); [reflexivity | exact IH].
Qed.

(** Every slide of the document is [parseSlideBlock] of a block. *)
Lemma slides_from_blocks (text : str) (doc : Document) :
  parseOutline text = Ok doc ->
  forall s, In s (slides doc) ->
            exists b, In b (blocksOf text) /\ parseSlideBlock b = Ok s.
Proof.
  intros P s I. destruct (blocksOf text) as [|b bs] eqn:B.
  - unfold parseOutline in P. rewrite B in P. injection P as <-. contradiction.
  - destruct (parseOutline_blocks _ _ _ B) as (t & st & ss & _ & _ & E & _ & Q).
    rewrite Q in P. injection P as <-. cbn [slides] in I.
    destruct (parseSlides_ok (if isTitleOnly b then bs else b :: bs))
      as (ss' & E' & F & _).
    rewrite E in E'. injection E' as <-.
    assert (K : incl (if isTitleOnly b then bs else b :: bs) (b :: bs))
      by (destruct (isTitleOnly b); [apply incl_tl|]; apply incl_refl).
    clear E Q. revert K F I. generalize (if isTitleOnly b then bs else b :: bs).
    intros l K F. induction F as [|x y l ss F0 F1 IH]; intros I; [contradiction|].
    destruct I as [<- | I].
    + exists x; split; [apply K; left; reflexivity | exact F0].
    + apply IH; [|exact I]. intros z Z; apply K; right; exact Z.
Qed.

End SlideFacts.

Section RunFacts.

Lemma codeLoop_body (body : list str) :
  Forall (fun l => isFence l = false) body ->
  forall tail content language codeLines,
    codeLoop (body ++ tail) content language codeLines =
    codeLoop tail content language (codeLines ++ body).
Proof.
  induction 1 as [|l body N _ IH]; intros; cbn [app].
  - rewrite app_nil_r. reflexivity.
  - rewrite codeLoop_cons, N, IH, <- app_assoc. reflexivity.
Qed.

Lemma bullet_run (run : list str) :
  Forall bulletMatching run ->
  exists items,
    itemsOf run items /\
    forall tail content cur,
      contentLoop (run ++ tail) content cur =
      contentLoop tail content (cur ++ items).
Proof.
  induction 1 as [|l run B _ (items & F & E)].
  - exists []; split; [constructor|]. intros. rewrite app_nil_r. reflexivity.
  - destruct (classify_bullet _ B) as (t & C).
    eexists (_ :: items); split; [constructor; [exact C | exact F]|].
    intros. cbn [app]. rewrite contentLoop_cons, C. cbn [bind continue].
    rewrite E, <- app_assoc. reflexivity.
Qed.




(** The first loop of [parseSlideBlock] stops at a bullet-matching line and
    leaves it to the second. *)
Lemma findTitle_bullet (l : str) (rest : list str) :
  bulletMatching l -> findTitle (l :: rest) = ([], l :: rest).
Proof.
  unfold bulletMatching. intros B.
  destruct (matchRe false reBullet l) as [f|] eqn:M; [clear B | congruence].
  destruct (bullet_match_trim _ _ M) as (c & t & g2 & T & C & _).
  cbn [findTitle]. rewrite T.
  destruct (matchRe false reTitle (c :: t)) as [h|] eqn:H.
  - apply title_head in H as (t' & H). injection H as -> _.
    destruct C as [C | C]; discriminate C.
  - reflexivity.
Qed.

(** ... and at a line that opens a code block. *)
Lemma findTitle_fence (l : str) (rest : list str) :
  isFence l = true -> findTitle (l :: rest) = ([], l :: rest).
Proof.
  unfold isFence. intros F. apply startsWith_fence in F as (t & T).
  rewrite fence_eq in T. cbn [app] in T. cbn [findTitle]. rewrite T.
  destruct (matchRe false reTitle _) as [h|] eqn:H; [|reflexivity].
  apply title_head in H as (t' & H). discriminate.
Qed.

End RunFacts.

Section SegmentationFacts.

(** The separator pattern, at one position. *)
Lemma exec_separator (prev : option N) (s : str) :
  exec true reSeparator prev s [] [] =
  if atBol true prev
  then match s with
       | a :: b :: c :: s' =>
           if (dash =? a)%N && (dash =? b)%N && (dash =? c)%N && atEol true s'
           then Some (s', [])
           else None
       | _ => None
       end
  else None.
Proof.
  unfold reSeparator. cbn [exec cmatch]. fold dash.
  destruct (atBol true prev); [|reflexivity].
  destruct s as [|a [|b [|c s']]]; try reflexivity;
    repeat match goal with
           | |- context [N.eqb dash ?x] => destruct (N.eqb dash x)
           end;
    try reflexivity.
Qed.

Lemma lineTerminator_not_dash (a : N) :
  isLineTerminator a = true -> (dash =? a)%N = false.
Proof.
  intros H. destruct (dash =? a)%N eqn:E; [|reflexivity].
  apply N.eqb_eq in E. subst a. discriminate.
Qed.

(** A position of a segment at which the pattern does not match does not
    match either when a line terminator follows the segment. *)
Lemma exec_separator_context (prev : option N) (c a : N) (u T : str) :
  isLineTerminator a = true ->
  exec true reSeparator prev (c :: u) [] [] = None ->
  exec true reSeparator prev (c :: u ++ a :: T) [] [] = None.
Proof.
  intros A. pose proof (lineTerminator_not_dash _ A) as D.
  rewrite !exec_separator. destruct (atBol true prev); [|reflexivity].
  destruct u as [|b [|d [|e u]]]; cbn [app].
  - intros _. destruct T as [|x T]; [reflexivity|].
    rewrite D, andb_false_r. reflexivity.
  - intros _. rewrite D, andb_false_r. reflexivity.
  - cbn [atEol]. rewrite A, andb_true_r.
    destruct ((dash =? c)%N && (dash =? b)%N && (dash =? d)%N);
      [discriminate | reflexivity].
  - cbn [atEol].
    destruct ((dash =? c)%N && (dash =? b)%N && (dash =? d)%N
              && (true && isLineTerminator e));
      [discriminate | reflexivity].
Qed.

Lemma splitLoop_scan_end (seg : str) :
  forall prev skipped piece,
    search true reSeparator prev seg skipped = None ->
    splitLoop true reSeparator prev seg 0 piece = [piece ++ seg].
Proof.
  induction seg as [|c seg IH]; intros prev skipped piece H; cbn [splitLoop].
  - rewrite app_nil_r. reflexivity.
  - apply search_none in H as [E H]. rewrite E.
    rewrite (IH _ _ _ H), <- app_assoc. reflexivity.
Qed.

Lemma splitLoop_scan (seg : str) (a : N) :
  isLineTerminator a = true ->
  forall prev skipped piece T,
    search true reSeparator prev seg skipped = None ->
    splitLoop true reSeparator prev (seg ++ a :: T) 0 piece =
    splitLoop true reSeparator (Some a) T 0 (piece ++ seg ++ [a]).
Proof.
  intros A. pose proof (lineTerminator_not_dash _ A) as D.
  induction seg as [|c seg IH]; intros prev skipped piece T H; cbn [app splitLoop].
  - rewrite exec_separator. destruct (atBol true prev); [|reflexivity].
    destruct T as [|b [|d T]]; rewrite ?D; reflexivity.
  - apply search_none in H as [E H].
    rewrite (exec_separator_context _ _ _ _ T A E).
    rewrite (IH _ _ _ _ H), <- app_assoc. reflexivity.
Qed.

Lemma splitLoop_match (m : bool) (r : regex) (prev : option N) (c : N)
      (s rest : str) (caps : captures) (k : nat) (piece : str) :
  exec m r prev (c :: s) [] [] = Some (rest, caps) ->
  length (c :: s) - length rest = S k ->
  splitLoop m r prev (c :: s) 0 piece = piece :: splitLoop m r (Some c) s k [].
Proof. intros E L. cbn [splitLoop]. rewrite E, L. reflexivity. Qed.

Lemma splitLoop_skip (m : bool) (r : regex) (prev : option N) (c : N)
      (s : str) (k : nat) (piece : str) :
  splitLoop m r prev (c :: s) (S k) piece = splitLoop m r (Some c) s k piece.
Proof. reflexivity. Qed.

Lemma splitLoop_miss (m : bool) (r : regex) (prev : option N) (c : N)
      (s : str) (piece : str) :
  exec m r prev (c :: s) [] [] = None ->
  splitLoop m r prev (c :: s) 0 piece =
  splitLoop m r (Some c) s 0 (piece ++ [c]).
Proof. intros E. cbn [splitLoop]. rewrite E. reflexivity. Qed.

(** Passing a separator line: the piece before it is complete, the next one
    starts with the line terminator that ends the separator line. *)
Lemma splitLoop_separator (seg R : str) (a b : N) :
  isLineTerminator a = true -> isLineTerminator b = true ->
  forall prev skipped piece,
    search true reSeparator prev seg skipped = None ->
    splitLoop true reSeparator prev (seg ++ separatorLine a b ++ R) 0 piece =
    (piece ++ seg ++ [a]) :: splitLoop true reSeparator (Some b) R 0 [b].
Proof.
  intros A B prev skipped piece H.
  change (separatorLine a b ++ R) with (a :: dash :: dash :: dash :: b :: R).
  rewrite (splitLoop_scan _ _ A _ _ _ _ H).
  rewrite (splitLoop_match true reSeparator (Some a) dash
             (dash :: dash :: b :: R) (b :: R) [] 2);
    [| rewrite exec_separator; cbn [atBol atEol]; rewrite A, B; reflexivity
     | cbn [length]; lia].
  rewrite !splitLoop_skip.
  rewrite splitLoop_miss by (rewrite exec_separator; reflexivity).
  reflexivity.
Qed.

Lemma search_after_terminator (b : N) (s skipped skipped' : str) :
  isLineTerminator b = true ->
  search true reSeparator None s skipped = None ->
  search true reSeparator (Some b) s skipped' = None.
Proof.
  intros B.
  assert (E : forall t, exec true reSeparator (Some b) t [] [] =
                        exec true reSeparator None t [] [])
    by (intros t; rewrite !exec_separator; cbn [atBol]; rewrite B; reflexivity).
  destruct s as [|c s]; cbn [search]; rewrite E;
    destruct (exec true reSeparator None _ [] []) as [[rest caps]|];
    try discriminate; auto.
  apply search_none_skipped.
Qed.

Lemma split_separator (text : str) :
  split true reSeparator text = splitLoop true reSeparator None text 0 [].
Proof. destruct text; reflexivity. Qed.

Lemma splitLoop_segments (more : list (N * N * str)) :
  forall seg prev piece,
    prev = None \/ (exists b, prev = Some b /\ isLineTerminator b = true) ->
    forallb isWhiteSpace piece = true ->
    Forall noSeparator (seg :: map snd more) ->
    Forall lineTerminators more ->
    map trim (splitLoop true reSeparator prev (joinSegments seg more) 0 piece) =
    map trim (seg :: map snd more).
Proof.
  induction more as [|[[a b] next] more IH]; intros seg prev piece P W F L;
    inversion F as [|? ? Ns F']; subst;
    assert (H : search true reSeparator prev seg [] = None)
      by (destruct P as [-> | (x & -> & X)];
          [exact Ns | eapply search_after_terminator; [exact X | exact Ns]]).
  - cbn [joinSegments]. rewrite (splitLoop_scan_end _ _ _ _ H). cbn [map]. f_equal.
    rewrite <- (app_nil_r seg) at 1. apply trim_padded; [exact W | reflexivity].
  - inversion L as [|? ? [A B] L']; subst. cbn [fst snd] in A, B.
    cbn [joinSegments]. rewrite (splitLoop_separator _ _ _ _ A B _ _ _ H).
    cbn [map snd]. f_equal.
    + apply trim_padded; [exact W|]. cbn [forallb].
      rewrite (lineTerminator_whiteSpace _ A). reflexivity.
    + apply IH; [right; eauto | | exact F' | exact L'].
      cbn [forallb]. rewrite (lineTerminator_whiteSpace _ B). reflexivity.
Qed.

(** The blocks of segments joined by separator lines. *)
Lemma blocksOf_segments (seg : str) (more : list (N * N * str)) :
  Forall noSeparator (seg :: map snd more) ->
  Forall lineTerminators more ->
  blocksOf (joinSegments seg more) =
  filter truthy (map trim (seg :: map snd more)).
Proof.
  intros F L. unfold blocksOf. rewrite split_separator.
  rewrite splitLoop_segments; auto.
Qed.

Lemma join_sepLine (s : str) (segs : list str) :
  join sepLine (s :: segs) =
  joinSegments s (map (fun x => (LF, LF, x)) segs).
Proof.
  revert s. induction segs as [|s' segs IH]; intros s; [reflexivity|].
  change (join sepLine (s :: s' :: segs))
    with (s ++ sepLine ++ join sepLine (s' :: segs)).
  rewrite IH. reflexivity.
Qed.

Lemma blocksOf_join (segs : list str) :
  Forall noSeparator segs ->
  blocksOf (join sepLine segs) = filter truthy (map trim segs).
Proof.
  intros F. destruct segs as [|s segs]; [reflexivity|].
  rewrite join_sepLine, blocksOf_segments.
  - rewrite map_map. cbn [snd]. rewrite map_id. reflexivity.
  - rewrite map_map. cbn [snd]. rewrite map_id. exact F.
  - clear F. induction segs; constructor; [split; reflexivity | assumption].
Qed.

End SegmentationFacts.

Section BlankBlockFacts.

Lemma parseOutline_ext (t1 t2 : str) :
  blocksOf t1 = blocksOf t2 -> parseOutline t1 = parseOutline t2.
Proof. intros E. unfold parseOutline. rewrite E. reflexivity. Qed.

Lemma splitOn_nonempty (sep : N) (s : str) : splitOn sep s <> [].
Proof.
  destruct s as [|c s]; cbn [splitOn]; [discriminate|].
  destruct (c =? sep)%N; [discriminate|]. destruct (splitOn sep s); discriminate.
Qed.

Lemma splitOn_cons (sep c : N) (s : str) :
  (c =? sep)%N = false ->
  exists l ls, splitOn sep s = l :: ls /\ splitOn sep (c :: s) = (c :: l) :: ls.
Proof.
  intros H. cbn [splitOn]. rewrite H.
  destruct (splitOn sep s) as [|l ls] eqn:E; [|eauto].
  exfalso. exact (splitOn_nonempty _ _ E).
Qed.

(** The lines of a block of white space are blank. *)
Lemma splitOn_blank (s : str) :
  forallb isWhiteSpace s = true ->
  Forall (fun l => trim l = []) (splitOn LF s).
Proof.
  induction s as [|c s IH]; cbn [splitOn forallb]; intros H.
  - repeat constructor.
  - apply andb_true_iff in H as [C H]. specialize (IH H).
    destruct (c =? LF)%N eqn:E.
    + constructor; [reflexivity | exact IH].
    + destruct (splitOn_cons _ _ s E) as (l & ls & E1 & _). rewrite E1 in *.
      inversion IH as [|? ? T L]; subst. constructor; [|exact L].
      apply trim_nil. cbn [forallb]. rewrite C. apply trim_nil, T.
Qed.

Lemma findTitle_blank (lines : list str) :
  Forall (fun l => trim l = []) lines -> findTitle lines = ([], []).
Proof.
  induction 1 as [|l lines T _ IH]; cbn [findTitle]; [reflexivity|].
  rewrite T. exact IH.
Qed.

Lemma parseSlideBlock_blank (block : str) :
  trim block = [] ->
  parseSlideBlock block = Ok {| slide_title := []; content := [] |}.
Proof.
  intros T. unfold parseSlideBlock.
  rewrite findTitle_blank by (apply splitOn_blank, trim_nil, T). reflexivity.
Qed.

Lemma trimStart_idem (s : str) : trimStart (trimStart s) = trimStart s.
Proof.
  induction s as [|c s IH]; cbn [trimStart]; [reflexivity|].
  destruct (isWhiteSpace c) eqn:W; [exact IH|]. cbn [trimStart]. rewrite W. reflexivity.
Qed.

Lemma trimEnd_idem (s : str) : trimEnd (trimEnd s) = trimEnd s.
Proof.
  induction s as [|c s IH]; cbn [trimEnd]; [reflexivity|].
  destruct (trimEnd s) as [|a t] eqn:E.
  - destruct (isWhiteSpace c) eqn:W; cbn [trimEnd]; rewrite ?W; reflexivity.
  - cbn [trimEnd] in *. rewrite IH. reflexivity.
Qed.

Lemma trim_idem (s : str) : trim (trim s) = trim s.
Proof.
  unfold trim. rewrite trimStart_trimEnd, trimEnd_idem, trimStart_idem.
  reflexivity.
Qed.

Lemma blocksOf_trimmed (text b : str) :
  In b (blocksOf text) -> b <> [] /\ trim b = b.
Proof.
  unfold blocksOf. intros H. apply filter_In in H as [H T].
  apply in_map_iff in H as (x & <- & _).
  split; [apply truthy_nonempty, T | apply trim_idem].
Qed.


(** Removing the heading mark of a line that is trimmed leaves text. *)
Lemma hash_replace_nonblank (line : str) :
  line <> [] -> trim line = line ->
  trim (replaceEmpty false reHash line) <> [].
Proof.
  intros NE T. unfold replaceEmpty, reHash. rewrite matchRe_anchored.
  destruct line as [|a tail]; [congruence|]. unfold plus. cbn [exec].
  destruct (cmatch (Chr (ch "#")) a) eqn:C; [|rewrite T; exact NE].
  apply N.eqb_eq in C. subst a.
  destruct (runLength Space None tail <? 1) eqn:L; [rewrite T; exact NE|].
  apply Nat.ltb_ge in L.
  destruct (descend _ _ _) as [[rest caps]|] eqn:D; [|rewrite T; exact NE].
  apply descend_some in D as (j & Hj & D). injection D as <- <-.
  cbn [before after app]. intros E. apply trim_nil in E.
  destruct (runLength_prefix Space tail (S j) ltac:(lia)) as [W Len].
  assert (E' : forallb isWhiteSpace (skipn (S j) tail) = true) by exact E.
  assert (A : forallb isWhiteSpace tail = true).
  { rewrite <- (firstn_skipn (S j) tail), forallb_app.
    change (cmatch Space) with isWhiteSpace in W. rewrite W, E'. reflexivity. }
  rewrite trim_of_nonspace in T by reflexivity.
  apply trimEnd_nil in A. rewrite A in T. injection T as T.
  subst tail. cbn in L. lia.
Qed.

Lemma contentLoop_nonblank (l : str) (rest : list str)
      (content : list ContentBlock) (cur : list BulletItem)
      (out : list ContentBlock) :
  trim l <> [] -> contentLoop (l :: rest) content cur = Ok out -> out <> [].
Proof.
  intros T H. rewrite contentLoop_cons in H.
  destruct (classify l) as [k|] eqn:K; [|discriminate].
  apply classify_inv in K. cbn [bind] in H.
  destruct k; cbn [continue] in H; [contradiction| | | |].
  - apply (proj1 (loops_shape rest)) in H as (more & suffix & ->).
    rewrite (flush_app (_ ++ more)). intros E.
    do 2 (apply app_eq_nil in E as [E _]). apply app_eq_nil in E as [_ E].
    discriminate.
  - apply (proj1 (loops_shape rest)) in H as (more & suffix & ->).
    destruct ((cur ++ [item]) ++ more) as [|x xs] eqn:X.
    + apply app_eq_nil in X as [X _]. apply app_eq_nil in X as [_ X]. discriminate.
    + cbn [flush]. intros E.
      apply app_eq_nil in E as [E _]. apply app_eq_nil in E as [_ E].
      discriminate.
  - apply (proj2 (loops_shape rest)) in H as (code & suffix & ->).
    intros E. apply app_eq_nil in E as [_ E]. discriminate.
  - apply (proj1 (loops_shape rest)) in H as (more & suffix & ->).
    rewrite (flush_app (_ ++ more)). intros E.
    do 2 (apply app_eq_nil in E as [E _]). apply app_eq_nil in E as [_ E].
    discriminate.
Qed.

(** The slide of a block that is trimmed and not empty has a title or some
    content. *)
Lemma parseSlideBlock_nonblank (b : str) (s : Slide) :
  b <> [] -> trim b = b -> parseSlideBlock b = Ok s ->
  slide_title s <> [] \/ content s <> [].
Proof.
  intros NE T P. destruct b as [|c t]; [congruence|].
  pose proof T as T'. apply trim_cons in T' as (ws & r & E & W & C & _).
  assert (NL : (c =? LF)%N = false).
  { destruct (c =? LF)%N eqn:Q; [|reflexivity].
    apply N.eqb_eq in Q. subst c. discriminate. }
  destruct (splitOn_cons _ _ t NL) as (l & ls & _ & Sp).
  rewrite parseSlideBlock_eq, Sp in P. cbn [findTitle] in P.
  assert (TL : trim (c :: l) = c :: trimEnd l) by (apply trim_of_nonspace, C).
  destruct (isSome (matchRe false reTitle (trim (c :: l)))).
  - left. cbn [fst snd] in P.
    destruct (contentLoop ls [] []) as [out|]; [|discriminate].
    injection P as <-. cbn [slide_title].
    apply hash_replace_nonblank; [rewrite TL; discriminate | apply trim_idem].
  - right. assert (Tr : truthy (trim (c :: l)) = true) by (rewrite TL; reflexivity).
    rewrite Tr in P. cbn [fst snd] in P.
    destruct (contentLoop ((c :: l) :: ls) [] []) as [out|] eqn:L; [|discriminate].
    injection P as <-. cbn [content].
    eapply contentLoop_nonblank; [|exact L]. rewrite TL. discriminate.
Qed.

End BlankBlockFacts.

(* ================================================================== *)
(** * The parser on some outlines *)
(* ================================================================== *)

Example fenced_code :
  parseSlideBlock (js "```python\nprint(1)\n```") =
  Ok {| slide_title := [];
        content := [Code (js "python") (js "print(1)")] |}.
Proof. reflexivity. Qed.

Example two_images :
  parseSlideBlock (js "# Pictures\n![a](a.png)\n![](b.png)") =
  Ok {| slide_title := js "Pictures";
        content := [Image (js "a") (js "a.png"); Image [] (js "b.png")] |}.
Proof. reflexivity. Qed.

Example title_block :
  exists doc,
    parseOutline (js "# Title\n## Sub\n---\n# One\ntext") = Ok doc /\
    title doc = js "Title" /\ subtitle doc = js "Sub" /\
    slides doc = [ {| slide_title := js "One"; content := [Text (js "text")] |} ].
Proof. eexists; split; [reflexivity|]. repeat split. Qed.

(** A later block that looks like a title block is an ordinary slide. *)
Example later_title_block :
  exists doc,
    parseOutline (js "intro\n---\n# Title\n## Sub") = Ok doc /\
    title doc = [] /\ subtitle doc = [] /\
    slides doc = [ {| slide_title := []; content := [Text (js "intro")] |};
                   {| slide_title := js "Title";
                      content := [Text (js "## Sub")] |} ].
Proof. eexists; split; [reflexivity|]. repeat split. Qed.

(** Without the flag [m] the end of a pattern is the end of the line: a
    bullet line that ends in a carriage return is a paragraph. *)
Example carriage_return :
  parseSlideBlock (js "- a\r\n- b") =
  Ok {| slide_title := [];
        content := [Text (js "- a"); Bullets [bullet "b" 0]] |}.
Proof. reflexivity. Qed.

(* ================================================================== *)
(** * Properties of the parser *)
(* ================================================================== *)




(** C2.  The outline of the title block [# T] followed by the slide [# S]
    with the bullets [a], [b] (indented by two) and [c] gives the title [T],
    no subtitle, and the one slide [S] with one bullet list of the items
    [a] at level 0, [b] at level 1 and [c] at level 0. *)
Theorem parseOutline_example :
  parseOutline (js "# T\n\n---\n\n# S\n- a\n  - b\n- c") =
  Ok {| title := js "T"; subtitle := []; theme := js "minimal";
        timing_default := 5;
        slides := [ {| slide_title := js "S";
                       content := [Bullets [bullet "a" 0; bullet "b" 1;
                                            bullet "c" 0]] |} ] |}.
Proof. vm_compute. reflexivity. Qed.

(** C3.  For every input text, the empty one included, [parseOutline]
    returns a document: none of its accesses to a match throws, both loops
    of [parseSlideBlock] end, and the document keeps the invariants of the
    data model (no empty bullet list, no empty paragraph, no negative
    level, a language on every code block). *)
Theorem parseOutline_total (text : str) :
  exists doc, parseOutline text = Ok doc /\ wfDocument doc.
Proof.
  destruct (blocksOf text) as [|b bs] eqn:B.
  - unfold parseOutline. rewrite B. eexists; split; [reflexivity|]. constructor.
  - destruct (parseOutline_blocks _ _ _ B) as (t & st & ss & _ & _ & _ & W & ->).
    eexists; split; [reflexivity | exact W].
Qed.

(** C4, as amended.  The text is split at every line that is exactly three
    hyphens, a line ending at a line feed, a carriage return or a line or
    paragraph separator; the segments that are empty once trimmed are
    discarded.  So segments that hold no such line, joined by N separator
    lines, give as blocks the trimmed segments that are not empty, in the
    order of the text; when none of the N+1 segments is empty once trimmed,
    these are N+1 blocks. *)
Theorem segmentation (seg : str) (more : list (N * N * str)) :
  Forall noSeparator (seg :: map snd more) ->
  Forall lineTerminators more ->
  blocksOf (joinSegments seg more) =
  filter truthy (map trim (seg :: map snd more)) /\
  (Forall (fun s => trim s <> []) (seg :: map snd more) ->
   blocksOf (joinSegments seg more) = map trim (seg :: map snd more) /\
   length (blocksOf (joinSegments seg more)) = S (length more)).
Proof.
  intros F L. pose proof (blocksOf_segments seg more F L) as B.
  split; [exact B|]. intros NE.
  assert (E : forall l, Forall (fun s => trim s <> []) l ->
                        filter truthy (map trim l) = map trim l).
  { induction 1 as [|s l NB _ IH]; [reflexivity|].
    cbn [map filter]. apply truthy_nonempty in NB. rewrite NB, IH. reflexivity. }
  rewrite B, (E _ NE). split; [reflexivity|].
  cbn [map length]. rewrite !length_map. reflexivity.
Qed.

Lemma segmentation_witness :
  blocksOf (js "# T\n\n---\n\n- a\n -- \n----\n\n---\n\n---\nlast") =
  [js "# T"; js "- a\n -- \n----"; js "last"] /\
  blocksOf (js " a\r\n---\r\nb \n---\n# c\n") = [js "a"; js "b"; js "# c"] /\
  length (blocksOf (js " a\r\n---\r\nb \n---\n# c\n")) = 3.
Proof.
  split.
  - refine (proj1 (segmentation (js "# T\n")
              [(10, 10, js "\n- a\n -- \n----\n"); (10, 10, js "");
               (10, 10, js "last")]%N _ _)).
    + repeat constructor.
    + repeat constructor.
  - refine (proj2 (segmentation (js " a\r")
              [(10, 13, js "\nb "); (10, 10, js "# c\n")]%N _ _) _).
    + repeat constructor.
    + repeat constructor.
    + repeat constructor; discriminate.
Defined.

(** C4, as stated, fails: the middle line of this text is three hyphens
    with a blank on each side, and the text is one block, not two. *)
Lemma padded_separator_does_not_split :
  splitOn LF (js "a\n --- \nb") = [js "a"; js " --- "; js "b"] /\
  trim (js " --- ") = js "---" /\
  blocksOf (js "a\n --- \nb") = [js "a\n --- \nb"] /\
  length (blocksOf (js "a\n --- \nb")) <> 2.
Proof. repeat split. discriminate. Qed.

(** C5, as amended.  A segment of blank lines only between separator lines
    is discarded: the document is the same as without it, and no slide of
    any document is without both a title and content.  What gives a slide
    with no title and no content is [parseSlideBlock], when applied to a
    block of blank lines only. *)
Theorem blank_block_discarded (pre post : list str) (blank : str) :
  Forall noSeparator (pre ++ blank :: post) ->
  trim blank = [] ->
  blocksOf (join sepLine (pre ++ blank :: post)) =
  blocksOf (join sepLine (pre ++ post)) /\
  parseOutline (join sepLine (pre ++ blank :: post)) =
  parseOutline (join sepLine (pre ++ post)) /\
  parseSlideBlock blank = Ok {| slide_title := []; content := [] |} /\
  (forall text doc s,
      parseOutline text = Ok doc -> In s (slides doc) ->
      slide_title s <> [] \/ content s <> []).
Proof.
  intros F T.
  assert (B : blocksOf (join sepLine (pre ++ blank :: post)) =
              blocksOf (join sepLine (pre ++ post))).
  { rewrite (blocksOf_join _ F).
    apply Forall_app in F as [F1 F2]. inversion F2 as [|? ? _ F3]; subst.
    rewrite (blocksOf_join (pre ++ post))
      by (apply Forall_app; split; assumption).
    rewrite !map_app, !filter_app. cbn [map filter]. rewrite T. reflexivity. }
  split; [exact B|]. split; [apply parseOutline_ext, B|].
  split; [apply parseSlideBlock_blank, T|].
  intros text doc s P I.
  destruct (slides_from_blocks _ _ P _ I) as (b & Ib & E).
  destruct (blocksOf_trimmed _ _ Ib) as [NE Tb].
  exact (parseSlideBlock_nonblank _ _ NE Tb E).
Qed.

Lemma blank_block_discarded_witness :
  parseOutline (js "x\n---\n \n\t\n---\ny") = parseOutline (js "x\n---\ny") /\
  parseSlideBlock (js " \n\t") = Ok {| slide_title := []; content := [] |}.
Proof.
  destruct (blank_block_discarded [js "x"] [js "y"] (js " \n\t")
              ltac:(repeat constructor) eq_refl) as (_ & A & B & _).
  split; [exact A | exact B].
Defined.

(** C5, as stated, fails: the middle block of this text is blank lines
    only, and the document has the two slides of the other blocks and no
    slide without title and content. *)
Lemma blank_block_gives_no_slide :
  exists doc,
    parseOutline (js "x\n---\n\n\n---\ny") = Ok doc /\
    slides doc = [ {| slide_title := []; content := [Text (js "x")] |};
                   {| slide_title := []; content := [Text (js "y")] |} ] /\
    ~ In {| slide_title := []; content := [] |} (slides doc).
Proof.
  eexists; split; [reflexivity|]. split; [reflexivity|].
  cbn. intros [H | [H | []]]; discriminate.
Qed.

(** C6.  A line whose trimmed form starts with three backticks opens a code
    block, whatever is pending.  The lines after it are taken as they are up
    to the next such line, which is passed over, or up to the end of the
    block when there is none; they are joined by line feeds into the code.
    The language is the trimmed text after the three backticks, and [text]
    when that is empty.  Nothing throws: a block that is such a line and
    lines with no closing one gives a slide with the one code block. *)
Theorem code_fence (line : str) (body : list str)
        (pushed : list ContentBlock) (cur : list BulletItem) :
  isFence line = true ->
  Forall (fun l => isFence l = false) body ->
  (forall closing rest,
      isFence closing = true ->
      contentLoop (line :: body ++ closing :: rest) pushed cur =
      contentLoop rest
        (flush cur pushed ++ [Code (fenceLanguage line) (join [LF] body)]) []) /\
  contentLoop (line :: body) pushed cur =
  Ok (flush cur pushed ++ [Code (fenceLanguage line) (join [LF] body)]) /\
  (forall block,
      splitOn LF block = line :: body ->
      parseSlideBlock block =
      Ok {| slide_title := [];
            content := [Code (fenceLanguage line) (join [LF] body)] |}) /\
  (trim (slice 3 (trim line)) = [] -> fenceLanguage line = js "text") /\
  (trim (slice 3 (trim line)) <> [] ->
   fenceLanguage line = trim (slice 3 (trim line))).
Proof.
  intros F B.
  assert (U : forall pushed cur,
             contentLoop (line :: body) pushed cur =
             Ok (flush cur pushed ++
                 [Code (fenceLanguage line) (join [LF] body)])).
  { intros. rewrite contentLoop_cons, (classify_fence _ F). cbn [bind continue].
    rewrite <- (app_nil_r body) at 1. rewrite codeLoop_body by exact B.
    reflexivity. }
  split; [|split; [|split; [|split]]].
  - intros closing rest C.
    rewrite contentLoop_cons, (classify_fence _ F). cbn [bind continue].
    rewrite codeLoop_body by exact B. rewrite codeLoop_cons, C. reflexivity.
  - apply U.
  - intros block Sp. rewrite parseSlideBlock_eq, Sp, findTitle_fence by exact F.
    cbn [fst snd]. rewrite U. reflexivity.
  - unfold fenceLanguage. intros ->. reflexivity.
  - unfold fenceLanguage. intros NE. apply truthy_nonempty in NE. rewrite NE.
    reflexivity.
Qed.

Lemma code_fence_witness :
  contentLoop [js " ```python"; js "print(1)"; js ""; js "```"; js "after"]
              [] [bullet "a" 0] =
  contentLoop [js "after"]
              [Bullets [bullet "a" 0]; Code (js "python") (js "print(1)\n")] []
  /\
  contentLoop [js " ```python"; js "print(1)"; js ""] [] [bullet "a" 0] =
  Ok [Bullets [bullet "a" 0]; Code (js "python") (js "print(1)\n")].
Proof.
  destruct (code_fence (js " ```python") [js "print(1)"; js ""] []
                       [bullet "a" 0] eq_refl ltac:(repeat constructor))
    as (A & B & _).
  split; [exact (A (js "```") [js "after"] eq_refl) | exact B].
Defined.

(** C7.  A blank line pushes the pending bullets as one bullet list, when
    there are any, and adds no block otherwise.  Hence a bullet run, a blank
    line and a second bullet run give two bullet lists, one after the other:
    the first ends with the items of the first run, the second starts with
    those of the second. *)
Theorem blank_line_splits_bullets
        (run1 run2 : list str) (blank : str) (tail : list str)
        (pushed : list ContentBlock) (cur : list BulletItem) :
  run1 <> [] -> run2 <> [] ->
  Forall bulletMatching run1 -> Forall bulletMatching run2 ->
  trim blank = [] ->
  (forall rest content' b cur',
      contentLoop (blank :: rest) content' (b :: cur') =
      contentLoop rest (content' ++ [Bullets (b :: cur')]) []) /\
  (forall rest content',
      contentLoop (blank :: rest) content' [] = contentLoop rest content' []) /\
  (forall out,
      contentLoop (run1 ++ blank :: run2 ++ tail) pushed cur = Ok out ->
      exists items1 items2 more rest,
        itemsOf run1 items1 /\ itemsOf run2 items2 /\
        out = pushed ++ Bullets (cur ++ items1)
                      :: Bullets (items2 ++ more) :: rest) /\
  (forall block,
      splitOn LF block = run1 ++ blank :: run2 ++ tail ->
      exists slide items1 items2 more rest,
        parseSlideBlock block = Ok slide /\
        itemsOf run1 items1 /\ itemsOf run2 items2 /\
        content slide = Bullets items1 :: Bullets (items2 ++ more) :: rest).
Proof.
  intros N1 N2 B1 B2 T.
  assert (R : forall content cur out,
             contentLoop (run1 ++ blank :: run2 ++ tail) content cur = Ok out ->
             exists items1 items2 more rest,
               itemsOf run1 items1 /\ itemsOf run2 items2 /\
               out = content ++ Bullets (cur ++ items1)
                             :: Bullets (items2 ++ more) :: rest).
  { clear pushed cur. intros content cur out H.
    destruct (bullet_run _ B1) as (items1 & I1 & E1).
    destruct (bullet_run _ B2) as (items2 & I2 & E2).
    rewrite E1, contentLoop_cons, (classify_blank _ T) in H.
    cbn [bind continue] in H. rewrite E2 in H.
    apply (proj1 (loops_shape tail)) in H as (more & rest & ->).
    exists items1, items2, more, rest. repeat split; [exact I1 | exact I2 |].
    assert (M1 : cur ++ items1 <> []).
    { inversion I1; subst; [congruence|]. destruct cur; discriminate. }
    assert (M2 : items2 <> []).
    { inversion I2; subst; [congruence | discriminate]. }
    cbn [app]. destruct (cur ++ items1) as [|x xs]; [congruence|].
    destruct items2 as [|y ys]; [congruence|].
    cbn [flush app]. rewrite <- !app_assoc. reflexivity. }
  split; [|split; [|split]].
  - intros. rewrite contentLoop_cons, (classify_blank _ T). reflexivity.
  - intros. rewrite contentLoop_cons, (classify_blank _ T). reflexivity.
  - apply R.
  - intros block Sp.
    destruct (parseSlideBlock_ok block) as (slide & P & _).
    pose proof P as P'. rewrite parseSlideBlock_eq, Sp in P'.
    destruct run1 as [|l run1]; [congruence|]. inversion B1; subst.
    cbn [app] in P'. rewrite findTitle_bullet in P' by assumption.
    cbn [fst snd] in P'.
    destruct (contentLoop _ [] []) as [out|] eqn:L; [|discriminate].
    injection P' as <-.
    destruct (R [] [] out L) as (items1 & items2 & more & rest & I1 & I2 & ->).
    exists {| slide_title := []; content :=
                Bullets items1 :: Bullets (items2 ++ more) :: rest |},
           items1, items2, more, rest.
    auto.
Qed.

Lemma blank_line_splits_bullets_witness :
  exists slide items1 items2 more rest,
    parseSlideBlock (js "- a\n  * b\n \n- c\n- d\nx") = Ok slide /\
    itemsOf [js "- a"; js "  * b"] items1 /\ itemsOf [js "- c"] items2 /\
    content slide = Bullets items1 :: Bullets (items2 ++ more) :: rest.
Proof.
  refine (proj2 (proj2 (proj2 (blank_line_splits_bullets
            [js "- a"; js "  * b"] [js "- c"] (js " ") [js "- d"; js "x"] [] []
            _ _ _ _ _))) (js "- a\n  * b\n \n- c\n- d\nx") eq_refl).
  - discriminate.
  - discriminate.
  - repeat constructor; discriminate.
  - repeat constructor; discriminate.
  - reflexivity.
Defined.




(** The lines are those of the block, which [parseOutline] has trimmed: the
    first line of a block has lost its indentation. *)
Example first_line_of_block_is_trimmed :
  exists doc,
    parseOutline (js "  - a\n  - b") = Ok doc /\
    map content (slides doc) = [[Bullets [bullet "a" 0; bullet "b" 1]]].
Proof. eexists; split; reflexivity. Qed.

(** C9.  The empty input gives a document with no slide, and with the empty
    title and subtitle that stand for an unset one. *)
Theorem parseOutline_empty :
  exists doc, parseOutline (js "") = Ok doc /\
              slides doc = [] /\ title doc = [] /\ subtitle doc = [].
Proof. eexists; split; [reflexivity|]. repeat split. Qed.

(** C10.  For every input text the document has the theme [minimal] and
    the default timing 5.  Its title, its subtitle and the title of each
    slide are strings: the empty string when the first block has no match
    of the title pattern, respectively of the subtitle pattern, and when the
    block of the slide has no heading. *)
Theorem parseOutline_fixed_fields (text : str) :
  exists doc,
    parseOutline text = Ok doc /\
    theme doc = js "minimal" /\ timing_default doc = 5%Z /\
    ((forall b, hd_error (blocksOf text) = Some b ->
                matchRe true reTitle b = None) -> title doc = []) /\
    ((forall b, hd_error (blocksOf text) = Some b ->
                matchRe true reSubtitle b = None) -> subtitle doc = []) /\
    (forall s, In s (slides doc) ->
               exists b, In b (blocksOf text) /\
                         parseSlideBlock b = Ok s /\
                         (noSlideHeading b -> slide_title s = [])).
Proof.
  assert (S : forall doc,
             parseOutline text = Ok doc ->
             forall s, In s (slides doc) ->
                       exists b, In b (blocksOf text) /\
                                 parseSlideBlock b = Ok s /\
                                 (noSlideHeading b -> slide_title s = [])).
  { intros doc P s I. destruct (slides_from_blocks _ _ P s I) as (x & X & E).
    exists x; repeat split; [exact X | exact E|].
    intros NH. rewrite parseSlideBlock_eq in E.
    destruct (contentLoop _ [] []) as [out|]; [|discriminate].
    injection E as <-. cbn [slide_title]. apply findTitle_none, NH. }
  destruct (blocksOf text) as [|b bs] eqn:B.
  - eexists. split; [unfold parseOutline; rewrite B; reflexivity|].
    cbn. repeat split; intros; contradiction.
  - destruct (parseOutline_blocks _ _ _ B) as (t & st & ss & T & ST & _ & _ & Q).
    eexists. split; [exact Q|].
    cbn [theme timing_default title subtitle]. repeat split.
    + intros H. rewrite (H b eq_refl) in T. cbn in T. congruence.
    + intros H. rewrite (H b eq_refl) in ST. cbn in ST. congruence.
    + exact (S _ Q).
Qed.

(* ================================================================== *)
(** * Facts about the slide builder *)
(* ================================================================== *)

Section EscapeFacts.

(** Replacing every occurrence of one code unit. *)
Lemma replaceAllLoop_char (c : N) (repl s : str) :
  forall prev,
    replaceAllLoop false [One (Chr c)] repl prev s 0 =
    flat_map (fun x => if (c =? x)%N then repl else [x]) s.
Proof.
  induction s as [|x s IH]; intros prev; cbn [replaceAllLoop exec flat_map cmatch].
  - reflexivity.
  - destruct (c =? x)%N.
    + replace (length (x :: s) - length s) with 1 by (cbn [length]; lia).
      rewrite IH. reflexivity.
    + rewrite IH. reflexivity.
Qed.

Lemma replaceAll_char (c : N) (repl s : str) :
  replaceAll false [One (Chr c)] repl s =
  flat_map (fun x => if (c =? x)%N then repl else [x]) s.
Proof. apply replaceAllLoop_char. Qed.

Lemma escapeHtml_flat_maps (s : str) :
  escapeHtml s =
  flat_map (fun x => if (ch "'" =? x)%N then js "&#039;" else [x])
    (flat_map (fun x => if (quot =? x)%N then js "&quot;" else [x])
       (flat_map (fun x => if (ch ">" =? x)%N then js "&gt;" else [x])
          (flat_map (fun x => if (ch "<" =? x)%N then js "&lt;" else [x])
             (flat_map (fun x => if (ch "&" =? x)%N then js "&amp;" else [x])
                s)))).
Proof.
  unfold escapeHtml. rewrite !replaceAll_char.
  destruct s; reflexivity.
Qed.

Lemma escapeHtml_one (x : N) : escapeHtml [x] = escapeChar x.
Proof.
  rewrite escapeHtml_flat_maps. unfold escapeChar.
  destruct (N.eq_dec x (ch "&")) as [-> | N1]; [reflexivity|].
  destruct (N.eq_dec x (ch "<")) as [-> | N2]; [reflexivity|].
  destruct (N.eq_dec x (ch ">")) as [-> | N3]; [reflexivity|].
  destruct (N.eq_dec x quot) as [-> | N4]; [reflexivity|].
  destruct (N.eq_dec x (ch "'")) as [-> | N5]; [reflexivity|].
  pose proof N1 as M1. pose proof N2 as M2. pose proof N3 as M3.
  pose proof N4 as M4. pose proof N5 as M5.
  apply N.eqb_neq in N1, N2, N3, N4, N5. rewrite N1, N2, N3, N4, N5.
  rewrite N.eqb_sym in N1, N2, N3, N4, N5.
  cbn [flat_map app]. rewrite N1. cbn [flat_map app]. rewrite N2.
  cbn [flat_map app]. rewrite N3. cbn [flat_map app]. rewrite N4.
  cbn [flat_map app]. rewrite N5. reflexivity.
Qed.

Lemma escapeHtml_app (a b : str) :
  escapeHtml (a ++ b) = escapeHtml a ++ escapeHtml b.
Proof. rewrite !escapeHtml_flat_maps, !flat_map_app. reflexivity. Qed.

Lemma escapeHtml_chars (s : str) : escapeHtml s = flat_map escapeChar s.
Proof.
  induction s as [|x s IH]; [reflexivity|].
  change (x :: s) with ([x] ++ s).
  rewrite escapeHtml_app, escapeHtml_one, IH. reflexivity.
Qed.

Lemma escapeChar_cases (c : N) :
  (c = ch "&" /\ escapeChar c = js "&amp;") \/
  (c = ch "<" /\ escapeChar c = js "&lt;") \/
  (c = ch ">" /\ escapeChar c = js "&gt;") \/
  (c = quot /\ escapeChar c = js "&quot;") \/
  (c = ch "'" /\ escapeChar c = js "&#039;") \/
  (c <> ch "&" /\ isMarkup c = false /\ escapeChar c = [c]).
Proof.
  unfold escapeChar, isMarkup.
  destruct (c =? ch "&")%N eqn:E1; [apply N.eqb_eq in E1; auto|].
  destruct (c =? ch "<")%N eqn:E2; [apply N.eqb_eq in E2; auto|].
  destruct (c =? ch ">")%N eqn:E3; [apply N.eqb_eq in E3; auto 6|].
  destruct (c =? quot)%N eqn:E4; [apply N.eqb_eq in E4; auto 6|].
  destruct (c =? ch "'")%N eqn:E5; [apply N.eqb_eq in E5; auto 8|].
  apply N.eqb_neq in E1. do 5 right. auto.
Qed.

Lemma escapeChar_no_markup (c x : N) :
  In x (escapeChar c) -> isMarkup x = false.
Proof.
  destruct (escapeChar_cases c)
    as [[_ ->] | [[_ ->] | [[_ ->] | [[_ ->] | [[_ ->] | (_ & M & ->)]]]]];
    cbn; intros H;
    repeat (destruct H as [<- | H]; [try reflexivity; exact M|]);
    contradiction.
Qed.

Lemma escapeHtml_no_markup (s : str) : filter isMarkup (escapeHtml s) = [].
Proof.
  rewrite escapeHtml_chars. induction s as [|c s IH]; [reflexivity|].
  cbn [flat_map]. rewrite filter_app, IH, app_nil_r.
  pose proof (escapeChar_no_markup c) as H.
  induction (escapeChar c) as [|y l IHl]; [reflexivity|].
  cbn [filter]. rewrite (H y (or_introl eq_refl)).
  apply IHl. intros x X. apply H. right. exact X.
Qed.

Lemma escapeChars_injective (a : str) :
  forall b, flat_map escapeChar a = flat_map escapeChar b -> a = b.
Proof.
  induction a as [|x a IH]; intros [|y b]; cbn [flat_map].
  - reflexivity.
  - intros H. exfalso.
    destruct (escapeChar_cases y)
      as [[_ E] | [[_ E] | [[_ E] | [[_ E] | [[_ E] | (_ & _ & E)]]]]];
      rewrite E in H; discriminate.
  - intros H. exfalso.
    destruct (escapeChar_cases x)
      as [[_ E] | [[_ E] | [[_ E] | [[_ E] | [[_ E] | (_ & _ & E)]]]]];
      rewrite E in H; discriminate.
  - intros H.
    destruct (escapeChar_cases x)
      as [[X E] | [[X E] | [[X E] | [[X E] | [[X E] | (X & _ & E)]]]]];
      destruct (escapeChar_cases y)
        as [[Y F] | [[Y F] | [[Y F] | [[Y F] | [[Y F] | (Y & _ & F)]]]]];
      rewrite E, F in H; cbn in H;
      try discriminate H;
      try (injection H as H; f_equal; [congruence | apply IH; exact H]);
      try (injection H as H0 H; f_equal; [exact H0 | apply IH; exact H]);
      try (injection H as H0 H; exfalso;
           first [apply Y; symmetry; exact H0 | apply X; exact H0]).
Qed.

End EscapeFacts.

Section BulletFacts.

Lemma orZero_id (x : Z) : orZero x = x.
Proof. unfold orZero. destruct (x =? 0)%Z eqn:E; [apply Z.eqb_eq in E; auto | reflexivity]. Qed.

Lemma nested_after (lvl : Z) (items : list BulletItem) :
  nestedItems lvl items ++ afterNested lvl items = items.
Proof.
  induction items as [|it rest IH]; cbn [nestedItems afterNested]; [reflexivity|].
  destruct (lvl <? orZero (level it))%Z; [cbn [app]; f_equal; exact IH | reflexivity].
Qed.

Lemma nested_after_length (lvl : Z) (items : list BulletItem) :
  length (nestedItems lvl items) + length (afterNested lvl items) = length items.
Proof. rewrite <- length_app, nested_after. reflexivity. Qed.

Lemma nested_nil_after (lvl : Z) (items : list BulletItem) :
  nestedItems lvl items = [] -> afterNested lvl items = items.
Proof. intros H. rewrite <- (nested_after lvl items) at 2. rewrite H. reflexivity. Qed.

(** More calls than needed give the same result. *)
Lemma fuel_mono (fuel : nat) :
  (forall items lvl h,
      renderBulletsFuel fuel items lvl = Some h ->
      forall fuel', fuel <= fuel' -> renderBulletsFuel fuel' items lvl = Some h) /\
  (forall items lvl h,
      bulletsLoop fuel items lvl = Some h ->
      forall fuel', fuel <= fuel' -> bulletsLoop fuel' items lvl = Some h).
Proof.
  induction fuel as [|fuel [IHr IHl]]; split; intros items lvl h H fuel' L.
  - destruct items; [destruct fuel'; exact H | discriminate].
  - destruct items; [destruct fuel'; exact H | discriminate].
  - destruct items as [|i r]; [destruct fuel'; exact H|].
    destruct fuel' as [|fuel']; [lia|]. cbn [renderBulletsFuel] in *.
    destruct (bulletsLoop fuel (i :: r) lvl) as [x|] eqn:E; [|discriminate].
    rewrite (IHl _ _ _ E fuel') by lia. exact H.
  - destruct items as [|i r]; [destruct fuel'; exact H|].
    destruct fuel' as [|fuel']; [lia|]. cbn [bulletsLoop] in *.
    destruct (orZero (level i) =? lvl)%Z.
    + destruct (nestedItems lvl r) as [|n ns].
      * destruct (bulletsLoop fuel r lvl) as [x|] eqn:E; [|discriminate].
        rewrite (IHl _ _ _ E fuel') by lia. exact H.
      * destruct (renderBulletsFuel fuel (n :: ns) (lvl + 1)) as [x|] eqn:E1;
          [|discriminate].
        destruct (bulletsLoop fuel (afterNested lvl r) lvl) as [y|] eqn:E2;
          [|discriminate].
        rewrite (IHr _ _ _ E1 fuel'), (IHl _ _ _ E2 fuel') by lia. exact H.
    + apply IHl with (fuel' := fuel') in H; [exact H | lia].
Qed.

(** Twice the length of the list is calls enough, and one more for the
    list as a whole. *)
Lemma fuel_enough (fuel : nat) :
  (forall items lvl,
      2 * length items + 1 <= fuel ->
      exists h, renderBulletsFuel fuel items lvl = Some h) /\
  (forall items lvl,
      2 * length items <= fuel -> exists h, bulletsLoop fuel items lvl = Some h).
Proof.
  induction fuel as [|fuel [IHr IHl]]; split; intros items lvl L.
  - lia.
  - destruct items; [eexists; reflexivity | cbn [length] in L; lia].
  - destruct items as [|i r]; [eexists; reflexivity|].
    cbn [renderBulletsFuel].
    destruct (IHl (i :: r) lvl ltac:(lia)) as (h & ->). eauto.
  - destruct items as [|i r]; [eexists; reflexivity|].
    cbn [length] in L. cbn [bulletsLoop].
    pose proof (nested_after_length lvl r) as NL.
    destruct (orZero (level i) =? lvl)%Z.
    + destruct (nestedItems lvl r) as [|n ns] eqn:E.
      * destruct (IHl r lvl ltac:(lia)) as (h & ->). eauto.
      * destruct (IHr (n :: ns) (lvl + 1)%Z ltac:(lia)) as (h1 & ->).
        destruct (IHl (afterNested lvl r) lvl ltac:(lia)) as (h2 & ->). eauto.
    + apply IHl. lia.
Qed.

Lemma bulletsLoop_any (fuel : nat) (items : list BulletItem) (lvl : Z) :
  2 * length items <= fuel -> bulletsLoop fuel items lvl = bulletsLoopOf items lvl.
Proof.
  intros L. unfold bulletsLoopOf.
  destruct (proj2 (fuel_enough (2 * length items)) items lvl (le_n _)) as (h & E).
  rewrite E. exact (proj2 (fuel_mono _) _ _ _ E fuel L).
Qed.

Lemma renderBulletsFuel_any (fuel : nat) (items : list BulletItem) (lvl : Z) :
  2 * length items + 1 <= fuel ->
  renderBulletsFuel fuel items lvl = renderBullets items lvl.
Proof.
  intros L. unfold renderBullets.
  destruct (proj1 (fuel_enough (2 * length items + 1)) items lvl (le_n _)) as (h & E).
  rewrite E. exact (proj1 (fuel_mono _) _ _ _ E fuel L).
Qed.

(** [renderBullets] and its loop, without the count of calls. *)
Lemma renderBullets_eq (items : list BulletItem) (lvl : Z) :
  renderBullets items lvl =
  match items with
  | [] => Some []
  | _ => match bulletsLoopOf items lvl with
         | Some html => Some (js "<ul>" ++ html ++ js "</ul>")
         | None => None
         end
  end.
Proof.
  destruct items as [|i r]; [reflexivity|].
  unfold renderBullets. rewrite Nat.add_1_r. cbn [renderBulletsFuel].
  reflexivity.
Qed.

Lemma bulletsLoopOf_cons (item : BulletItem) (rest : list BulletItem) (lvl : Z) :
  bulletsLoopOf (item :: rest) lvl =
  if (level item =? lvl)%Z
  then
    match nestedItems lvl rest with
    | [] =>
        match bulletsLoopOf rest lvl with
        | Some more =>
            Some (js "<li>" ++ escapeHtml (text item) ++ js "</li>" ++ more)
        | None => None
        end
    | nested =>
        match renderBullets nested (lvl + 1),
              bulletsLoopOf (afterNested lvl rest) lvl with
        | Some inner, Some more =>
            Some (js "<li>" ++ escapeHtml (text item) ++ inner
                     ++ js "</li>" ++ more)
        | _, _ => None
        end
    end
  else bulletsLoopOf rest lvl.
Proof.
  unfold bulletsLoopOf at 1. cbn [length].
  replace (2 * S (length rest)) with (S (2 * length rest + 1)) by lia.
  cbn [bulletsLoop]. rewrite orZero_id.
  pose proof (nested_after_length lvl rest) as NL.
  destruct (level item =? lvl)%Z.
  - destruct (nestedItems lvl rest) as [|n ns] eqn:E.
    + rewrite bulletsLoop_any by lia. reflexivity.
    + rewrite renderBulletsFuel_any by lia.
      rewrite bulletsLoop_any by lia. reflexivity.
  - rewrite bulletsLoop_any by lia. reflexivity.
Qed.

Lemma bulletsLoopOf_ok (items : list BulletItem) (lvl : Z) :
  exists h, bulletsLoopOf items lvl = Some h.
Proof. apply (proj2 (fuel_enough _)). lia. Qed.

Lemma renderBullets_ok (items : list BulletItem) (lvl : Z) :
  exists h, renderBullets items lvl = Some h.
Proof. apply (proj1 (fuel_enough _)). lia. Qed.

(** The loop passes over the items that are not at its level, as long as
    no item at its level has come. *)
Lemma bulletsLoopOf_skip (pre rest : list BulletItem) (lvl : Z) :
  Forall (fun it => level it <> lvl) pre ->
  bulletsLoopOf (pre ++ rest) lvl = bulletsLoopOf rest lvl.
Proof.
  induction 1 as [|it pre N _ IH]; [reflexivity|].
  cbn [app]. rewrite bulletsLoopOf_cons.
  apply Z.eqb_neq in N. rewrite N. exact IH.
Qed.

Lemma nestedItems_all (lvl : Z) (items : list BulletItem) :
  Forall (fun x => (lvl < level x)%Z) (nestedItems lvl items).
Proof.
  induction items as [|it rest IH]; cbn [nestedItems]; [constructor|].
  rewrite orZero_id. destruct (lvl <? level it)%Z eqn:E; [|constructor].
  constructor; [apply Z.ltb_lt, E | exact IH].
Qed.

Lemma nestedItems_app (lvl : Z) (deep after : list BulletItem) :
  Forall (fun x => (lvl < level x)%Z) deep ->
  match after with
  | [] => True
  | a :: _ => (level a <= lvl)%Z
  end ->
  nestedItems lvl (deep ++ after) = deep /\
  afterNested lvl (deep ++ after) = after.
Proof.
  intros D A. induction D as [|d deep L _ IH]; cbn [app nestedItems afterNested].
  - destruct after as [|a after]; [auto|]. cbn [nestedItems afterNested].
    rewrite orZero_id. apply Z.ltb_ge in A. rewrite A. auto.
  - rewrite orZero_id. apply Z.ltb_lt in L. rewrite L.
    destruct IH as [-> ->]. auto.
Qed.

Lemma stepsOk_nested (lvl : Z) (items : list BulletItem) :
  forall prev, stepsOk prev items -> stepsOk prev (nestedItems lvl items).
Proof.
  induction items as [|it rest IH]; intros prev S; cbn [nestedItems]; [exact I|].
  destruct (lvl <? orZero (level it))%Z; [|exact I].
  destruct S as [S1 S2]. split; [exact S1 | apply IH, S2].
Qed.

Lemma stepsOk_after (lvl : Z) (items : list BulletItem) :
  forall prev a rest,
    stepsOk prev items -> afterNested lvl items = a :: rest ->
    (level a <= lvl)%Z /\ stepsOk (level a) rest.
Proof.
  induction items as [|it items IH]; intros prev a rest S E;
    cbn [afterNested] in E; [discriminate|].
  rewrite orZero_id in E. destruct S as [S1 S2].
  destruct (lvl <? level it)%Z eqn:L.
  - exact (IH _ _ _ S2 E).
  - injection E as <- <-. apply Z.ltb_ge in L. auto.
Qed.

Lemma afterNested_all (P : BulletItem -> Prop) (lvl : Z) (items : list BulletItem) :
  Forall P items -> Forall P (afterNested lvl items).
Proof.
  intros F. rewrite <- (nested_after lvl items) in F.
  apply Forall_app in F. tauto.
Qed.

Lemma wellNested_split (lvl : Z) (item : BulletItem) (rest : list BulletItem) :
  wellNested lvl (item :: rest) ->
  wellNested (lvl + 1) (nestedItems lvl rest) /\
  wellNested lvl (afterNested lvl rest).
Proof.
  intros (_ & F & S). split.
  - pose proof (nestedItems_all lvl rest) as A.
    pose proof (stepsOk_nested lvl rest lvl S) as T.
    destruct (nestedItems lvl rest) as [|n ns]; [exact I|].
    inversion A as [|? ? A1 A2]; subst. destruct T as [T1 T2].
    assert (E : level n = (lvl + 1)%Z) by lia.
    repeat split; [exact E | | rewrite <- E; exact T2].
    eapply Forall_impl; [|exact A2]. cbn. intros; lia.
  - pose proof (afterNested_all _ lvl rest F) as A.
    destruct (afterNested lvl rest) as [|a rs] eqn:E; [exact I|].
    destruct (stepsOk_after lvl rest lvl a rs S E) as [L T].
    inversion A as [|? ? A1 A2]; subst.
    assert (Q : level a = lvl) by lia.
    repeat split; [exact Q | exact A2 | rewrite <- Q; exact T].
Qed.

Lemma atDepth_node (lvl : Z) (item : BulletItem) (children : list bulletTree) :
  atDepth lvl (Node item children) <->
  level item = lvl /\ Forall (atDepth (lvl + 1)) children.
Proof.
  cbn [atDepth]. apply and_iff_compat_l.
  induction children as [|t ts IH]; [split; constructor|].
  rewrite IH. split.
  - intros [A B]; constructor; assumption.
  - intros F; inversion F; subst; tauto.
Qed.

Lemma preorder_nil (forest : list bulletTree) :
  flat_map preorder forest = [] -> forest = [].
Proof. destruct forest as [|[item kids] f]; [reflexivity | discriminate]. Qed.

(** The loop on a well-nested list prints a forest whose items, in order,
    are the list. *)
Lemma bulletsLoopOf_forest (n : nat) :
  forall items lvl,
    length items <= n -> wellNested lvl items ->
    exists forest,
      bulletsLoopOf items lvl = Some (flat_map printTree forest) /\
      flat_map preorder forest = items /\
      Forall (atDepth lvl) forest.
Proof.
  induction n as [|n IH]; intros items lvl L W.
  - destruct items; [|cbn [length] in L; lia].
    exists []. repeat split. constructor.
  - destruct items as [|item rest].
    { exists []. repeat split. constructor. }
    cbn [length] in L. pose proof (nested_after_length lvl rest) as NL.
    destruct (wellNested_split _ _ _ W) as [WN WA].
    destruct (IH (nestedItems lvl rest) (lvl + 1)%Z ltac:(lia) WN)
      as (kids & EK & PK & DK).
    destruct (IH (afterNested lvl rest) lvl ltac:(lia) WA)
      as (more & EM & PM & DM).
    exists (Node item kids :: more).
    destruct W as (Q & _). rewrite bulletsLoopOf_cons.
    apply Z.eqb_eq in Q. rewrite Q. apply Z.eqb_eq in Q.
    split; [|split].
    + destruct (nestedItems lvl rest) as [|x xs] eqn:E.
      * apply preorder_nil in PK. subst kids.
        rewrite (nested_nil_after _ _ E) in EM. rewrite EM.
        cbn [flat_map printTree app]. rewrite <- !app_assoc. reflexivity.
      * rewrite renderBullets_eq, EK, EM.
        destruct kids as [|k ks]; [discriminate PK|].
        cbn [flat_map printTree]. rewrite <- !app_assoc. reflexivity.
    + cbn [flat_map preorder]. rewrite PK, PM. cbn [app]. f_equal.
      apply nested_after.
    + constructor; [|exact DM]. apply atDepth_node. auto.
Qed.

Lemma map_erase_nested (lvl : Z) (items : list BulletItem) :
  nestedItems lvl (map eraseItem items) = map eraseItem (nestedItems lvl items) /\
  afterNested lvl (map eraseItem items) = map eraseItem (afterNested lvl items).
Proof.
  induction items as [|it rest [IH1 IH2]]; [split; reflexivity|].
  cbn [map nestedItems afterNested eraseItem level].
  destruct (lvl <? orZero (level it))%Z; [|split; reflexivity].
  rewrite IH1, IH2. split; reflexivity.
Qed.

Lemma filter_markup_tag (a b : str) (t : str) :
  filter isMarkup (a ++ escapeHtml t ++ b) = filter isMarkup (a ++ b).
Proof. rewrite !filter_app, escapeHtml_no_markup. reflexivity. Qed.

(** The markup of a list does not depend on the texts of its items. *)
Lemma bulletsLoopOf_markup (n : nat) :
  forall items lvl,
    length items <= n ->
    exists h h0,
      bulletsLoopOf items lvl = Some h /\
      bulletsLoopOf (map eraseItem items) lvl = Some h0 /\
      filter isMarkup h = filter isMarkup h0.
Proof.
  induction n as [|n IH]; intros items lvl L.
  - destruct items; [|cbn [length] in L; lia]. exists [], []. auto.
  - destruct items as [|item rest]; [exists [], []; auto|].
    cbn [length] in L. pose proof (nested_after_length lvl rest) as NL.
    cbn [map]. rewrite !bulletsLoopOf_cons.
    destruct (map_erase_nested lvl rest) as [-> ->].
    cbn [eraseItem level text].
    destruct (level item =? lvl)%Z; [|apply IH; lia].
    destruct (nestedItems lvl rest) as [|x xs] eqn:E; cbn [map].
    + destruct (IH rest lvl ltac:(lia)) as (h & h0 & -> & -> & F).
      eexists; eexists; repeat split.
      rewrite !filter_app, !escapeHtml_no_markup, F. reflexivity.
    + change (eraseItem x :: map eraseItem xs) with (map eraseItem (x :: xs)).
      rewrite !renderBullets_eq. cbn [map].
      destruct (IH (x :: xs) (lvl + 1)%Z ltac:(lia)) as (k & k0 & -> & K0 & FK).
      cbn [map] in K0. rewrite K0.
      destruct (IH (afterNested lvl rest) lvl ltac:(lia)) as (h & h0 & -> & -> & F).
      eexists; eexists; repeat split.
      rewrite !filter_app, !escapeHtml_no_markup, FK, F. reflexivity.
Qed.

End BulletFacts.

(* ================================================================== *)
(** * Further facts about the parser *)
(* ================================================================== *)

Section GreedyFacts.

Lemma descend_first (A : Type) (n lo : nat) (try : nat -> option A) (r : A) :
  try (lo + n) = Some r -> descend n lo try = Some r.
Proof. destruct n; cbn [descend]; intros ->; reflexivity. Qed.

Lemma exec_One (m : bool) (k : cclass) (r : regex) (prev : option N)
      (c : N) (s : str) (opened caps : captures) :
  cmatch k c = true ->
  exec m (One k :: r) prev (c :: s) opened caps = exec m r (Some c) s opened caps.
Proof. intros H. cbn [exec]. rewrite H. reflexivity. Qed.

Lemma runLength_app (k : cclass) (a rest : str) :
  Forall (fun c => cmatch k c = true) a -> stops k rest ->
  runLength k None (a ++ rest) = length a.
Proof.
  intros F S. induction F as [|c a C _ IH]; cbn [app].
  - destruct rest as [|x rest]; [reflexivity|]. rewrite runLength_cons.
    cbn [stops] in S. rewrite S. reflexivity.
  - rewrite runLength_cons, C, IH. reflexivity.
Qed.

(** A greedy quantifier whose longest run lets the rest of the pattern
    match. *)
Lemma exec_rep_greedy (m : bool) (k : cclass) (lo : nat) (r : regex)
      (prev : option N) (a rest : str) (opened caps : captures)
      (res : str * captures) :
  Forall (fun c => cmatch k c = true) a -> stops k rest -> lo <= length a ->
  (forall p, exec m r p rest opened caps = Some res) ->
  exec m (Rep k lo None :: r) prev (a ++ rest) opened caps = Some res.
Proof.
  intros F S L H. cbn [exec]. rewrite (runLength_app k a rest F S).
  destruct (length a <? lo) eqn:E; [apply Nat.ltb_lt in E; lia|].
  apply descend_first.
  replace (lo + (length a - lo)) with (length a + 0) by lia.
  rewrite skipn_app, Nat.add_0_r, skipn_all, Nat.sub_diag. cbn [app skipn].
  apply H.
Qed.

Lemma firstn_app_length (a rest : str) :
  firstn (length (a ++ rest) - length rest) (a ++ rest) = a.
Proof.
  rewrite length_app. replace (length a + length rest - length rest) with (length a + 0) by lia.
  rewrite firstn_app_2. cbn [firstn]. apply app_nil_r.
Qed.

Lemma whiteRun_cmatch (ws : str) :
  forallb isWhiteSpace ws = true -> Forall (fun c => cmatch Space c = true) ws.
Proof. intros H. apply Forall_forall. intros c I. exact (proj1 (forallb_forall _ _) H c I). Qed.

Lemma oneLine_cmatch (t : str) :
  oneLine t -> Forall (fun c => cmatch Dot c = true) t.
Proof.
  intros H. eapply Forall_impl; [|exact H]. cbn. intros c ->. reflexivity.
Qed.

Lemma plainText_head (t : str) :
  plainText t -> exists c t', t = c :: t' /\ isWhiteSpace c = false /\ trimEnd t = t.
Proof.
  intros (NE & T & _). destruct t as [|c t']; [congruence|].
  pose proof T as T'. apply trim_cons in T' as (ws & r & E & W & C & Q).
  exists c, t'. repeat split; [exact C|].
  unfold trim in T. cbn [trimStart] in T. rewrite C in T. exact T.
Qed.

Lemma atEol_stops_dot (m : bool) (T : str) : atEol m T = true -> stops Dot T.
Proof.
  destruct T as [|c T]; [exact (fun _ => I)|]. cbn [atEol stops cmatch].
  intros H. apply andb_true_iff in H as [_ H]. rewrite H. reflexivity.
Qed.

(** The rest of a heading pattern, after the marks: white space, then the
    text up to the end of the line, which is group 1. *)
Lemma exec_heading_tail (m : bool) (prev : option N) (ws t T : str) :
  whiteRun ws -> plainText t -> atEol m T = true ->
  exec m [plus Space; Open 1; plus Dot; Close 1; Eol] prev (ws ++ t ++ T) [] [] =
  Some (T, [(1, t)]).
Proof.
  intros (NW & W) P E.
  destruct (plainText_head t P) as (c & t' & -> & C & _).
  destruct P as (_ & _ & O).
  unfold plus. apply exec_rep_greedy.
  - apply whiteRun_cmatch, W.
  - cbn [app stops cmatch]. exact C.
  - destruct ws; [congruence | cbn [length]; lia].
  - intros p. cbn [exec].
    change (exec m (Rep Dot 1 None :: [Close 1; Eol]) p ((c :: t') ++ T)
                 [(1, (c :: t') ++ T)] [] = Some (T, [(1, c :: t')])).
    apply exec_rep_greedy.
    + apply oneLine_cmatch, O.
    + apply (atEol_stops_dot m), E.
    + cbn [length]; lia.
    + intros q. cbn [exec lookup find fst snd option_map Nat.eqb].
      rewrite E, firstn_app_length. reflexivity.
Qed.

End GreedyFacts.

Section LineFacts.

Lemma exec_Open (m : bool) (g : nat) (r : regex) (prev : option N) (s : str)
      (opened caps : captures) :
  exec m (Open g :: r) prev s opened caps = exec m r prev s ((g, s) :: opened) caps.
Proof. reflexivity. Qed.

Lemma exec_Close (m : bool) (g : nat) (r : regex) (prev : option N) (s o : str)
      (opened caps : captures) :
  lookup g opened = Some o ->
  exec m (Close g :: r) prev s opened caps =
  exec m r prev s opened ((g, firstn (length o - length s) o) :: caps).
Proof. intros H. cbn [exec]. rewrite H. reflexivity. Qed.

Lemma trimEnd_last (x : str) (c : N) :
  isWhiteSpace c = false -> trimEnd (x ++ [c]) = x ++ [c].
Proof.
  intros C. induction x as [|a x IH]; cbn [app trimEnd].
  - rewrite C. reflexivity.
  - rewrite IH. destruct (x ++ [c]) eqn:E; [|reflexivity].
    destruct x; discriminate.
Qed.

Lemma trimEnd_app_text (x t : str) :
  t <> [] -> trimEnd t = t -> trimEnd (x ++ t) = x ++ t.
Proof.
  intros NE T. induction x as [|a x IH]; cbn [app trimEnd]; [exact T|].
  rewrite IH. destruct (x ++ t) eqn:E; [|reflexivity].
  apply app_eq_nil in E as [_ E]. congruence.
Qed.

(** A heading line is trimmed when its text is. *)
Lemma trim_heading (marks ws t : str) (c : N) :
  isWhiteSpace c = false -> plainText t ->
  trim (c :: marks ++ ws ++ t) = c :: marks ++ ws ++ t.
Proof.
  intros C P. destruct (plainText_head t P) as (h & t' & E & _ & T).
  rewrite trim_of_nonspace by exact C. f_equal.
  rewrite app_assoc. apply trimEnd_app_text; [rewrite E; discriminate | exact T].
Qed.

Lemma title_line_match (ws t : str) :
  whiteRun ws -> plainText t ->
  matchRe false reTitle (ch "#" :: ws ++ t) = Some (Found [] [] [(1, t)]).
Proof.
  intros W P. unfold reTitle. rewrite matchRe_anchored.
  rewrite exec_One by reflexivity.
  rewrite <- (app_nil_r t) at 1.
  rewrite (exec_heading_tail false _ ws t [] W P eq_refl). reflexivity.
Qed.

Lemma hash_replace (ws t : str) :
  whiteRun ws -> plainText t ->
  replaceEmpty false reHash (ch "#" :: ws ++ t) = t.
Proof.
  intros (NW & W) P. destruct (plainText_head t P) as (c & t' & E & C & _).
  unfold replaceEmpty, reHash. rewrite matchRe_anchored.
  rewrite exec_One by reflexivity. unfold plus.
  rewrite (exec_rep_greedy false Space 1 [] (Some (ch "#")) ws t [] [] (t, [])).
  - reflexivity.
  - apply whiteRun_cmatch, W.
  - rewrite E. exact C.
  - destruct ws; [congruence | cbn [length]; lia].
  - reflexivity.
Qed.

Lemma findTitle_skip (blanks lines : list str) :
  Forall (fun l => trim l = []) blanks ->
  findTitle (blanks ++ lines) = findTitle lines.
Proof.
  induction 1 as [|l blanks T _ IH]; [reflexivity|].
  cbn [app findTitle]. rewrite T. exact IH.
Qed.

Lemma imageLine_last (alt src : str) :
  imageLine alt src =
  (ch "!" :: ch "[" :: alt ++ ch "]" :: ch "(" :: src) ++ [ch ")"].
Proof.
  unfold imageLine. cbn [app]. rewrite <- app_assoc. reflexivity.
Qed.

Lemma noneOf_cmatch (k : N) (s : str) :
  Forall (fun c => c <> k) s -> Forall (fun c => cmatch (NoneOf [k]) c = true) s.
Proof.
  intros H. eapply Forall_impl; [|exact H]. cbn. intros c NE.
  apply N.eqb_neq in NE. rewrite NE. reflexivity.
Qed.

Lemma image_match (alt src : str) :
  Forall (fun c => c <> ch "]") alt ->
  src <> [] -> Forall (fun c => c <> ch ")") src ->
  matchRe false reImage (imageLine alt src) =
  Some (Found [] [] [(2, src); (1, alt)]).
Proof.
  intros A NE S. unfold reImage, imageLine. rewrite matchRe_anchored.
  rewrite !exec_One by reflexivity. rewrite exec_Open. unfold star.
  rewrite (exec_rep_greedy false (NoneOf [ch "]"]) 0 _ _ alt _ _ _
             ([], [(2, src); (1, alt)])).
  - reflexivity.
  - apply noneOf_cmatch, A.
  - reflexivity.
  - lia.
  - intros p. erewrite exec_Close by reflexivity. cbn [snd].
    rewrite firstn_app_length. rewrite !exec_One by reflexivity.
    rewrite exec_Open. unfold plus.
    apply exec_rep_greedy.
    + apply noneOf_cmatch, S.
    + reflexivity.
    + destruct src; [congruence | cbn [length]; lia].
    + intros q. erewrite exec_Close by reflexivity. cbn [snd].
      rewrite firstn_app_length. rewrite exec_One by reflexivity.
      reflexivity.
Qed.

(** What the loops return is what they return from no content, after the
    content they were given. *)
Lemma loops_content (lines : list str) :
  (forall content cur,
      contentLoop lines content cur =
      (out <- contentLoop lines [] cur ;; Ok (content ++ out))) /\
  (forall content language codeLines,
      codeLoop lines content language codeLines =
      (out <- codeLoop lines [] language codeLines ;; Ok (content ++ out))).
Proof.
  induction lines as [|l rest [IHc IHk]]; split;
    [intros pushed cur | intros pushed language codeLines
     | intros pushed cur | intros pushed language codeLines].
  - cbn [contentLoop bind]. rewrite flush_app. reflexivity.
  - reflexivity.
  - rewrite !contentLoop_cons. destruct (classify l) as [k|]; [|reflexivity].
    cbn [bind]. destruct k; cbn [continue].
    + rewrite IHc, (IHc (flush cur [])).
      destruct (contentLoop rest [] []); cbn [bind]; [|reflexivity].
      rewrite (flush_app cur pushed), <- app_assoc. reflexivity.
    + rewrite IHc, (IHc (flush cur [] ++ _)).
      destruct (contentLoop rest [] []); cbn [bind]; [|reflexivity].
      rewrite (flush_app cur pushed), <- !app_assoc. reflexivity.
    + rewrite IHc. reflexivity.
    + rewrite IHk, (IHk (flush cur [])).
      destruct (codeLoop rest [] language []); cbn [bind]; [|reflexivity].
      rewrite (flush_app cur pushed), <- app_assoc. reflexivity.
    + rewrite IHc, (IHc (flush cur [] ++ _)).
      destruct (contentLoop rest [] []); cbn [bind]; [|reflexivity].
      rewrite (flush_app cur pushed), <- !app_assoc. reflexivity.
  - rewrite !codeLoop_cons. destruct (isFence l).
    + rewrite IHc, (IHc ([] ++ _)).
      destruct (contentLoop rest [] []); cbn [bind]; [|reflexivity].
      rewrite <- app_assoc. reflexivity.
    + apply IHk.
Qed.

(** A line that is no bullet has the pending bullets pushed before it is
    looked at. *)
Lemma contentLoop_flush_first (l : str) (rest : list str)
      (content : list ContentBlock) (cur : list BulletItem) :
  ~ bulletMatching l ->
  contentLoop (l :: rest) content cur =
  contentLoop (l :: rest) (flush cur content) [].
Proof.
  intros NB. rewrite !contentLoop_cons.
  destruct (classify l) as [k|] eqn:K; [|reflexivity].
  apply classify_inv in K. cbn [bind].
  destruct k; cbn [continue flush]; try reflexivity.
  destruct K as [B _]. contradiction.
Qed.

End LineFacts.

Section TitleBlockFacts.

Lemma search_hit (m : bool) (r : regex) (prev : option N) (s skipped rest : str)
      (caps : captures) :
  exec m r prev s [] [] = Some (rest, caps) ->
  search m r prev s skipped = Some (Found skipped rest caps).
Proof. intros E. destruct s; cbn [search]; rewrite E; reflexivity. Qed.

Lemma search_miss (m : bool) (r : regex) (prev : option N) (c : N)
      (s skipped : str) :
  exec m r prev (c :: s) [] [] = None ->
  search m r prev (c :: s) skipped = search m r (Some c) s (skipped ++ [c]).
Proof. intros E. cbn [search]. rewrite E. reflexivity. Qed.

Lemma exec_Bol_inside (r : regex) (c : N) (s : str) :
  isLineTerminator c = false ->
  exec true (Bol :: r) (Some c) s [] [] = None.
Proof. intros H. cbn [exec atBol andb]. rewrite H. reflexivity. Qed.

Lemma exec_Bol_start (r : regex) (prev : option N) (s : str) :
  prev = None \/ prev = Some LF ->
  exec true (Bol :: r) prev s [] [] = exec true r prev s [] [].
Proof. intros [-> | ->]; reflexivity. Qed.

Lemma exec_One_fail (m : bool) (k : cclass) (r : regex) (prev : option N)
      (c : N) (s : str) (opened caps : captures) :
  cmatch k c = false -> exec m (One k :: r) prev (c :: s) opened caps = None.
Proof. intros H. cbn [exec]. rewrite H. reflexivity. Qed.

(** Inside a line a pattern that starts with [^] matches nowhere: the
    search goes on at the start of the next line. *)
Lemma search_in_line (r : regex) (line : str) :
  forall c skipped rest,
    isLineTerminator c = false -> oneLine line ->
    search true (Bol :: r) (Some c) (line ++ LF :: rest) skipped =
    search true (Bol :: r) (Some LF) rest (skipped ++ line ++ [LF]).
Proof.
  induction line as [|x line IH]; intros c skipped rest C O; cbn [app].
  - rewrite search_miss by (apply exec_Bol_inside, C). reflexivity.
  - inversion O as [|? ? X O']; subst.
    rewrite search_miss by (apply exec_Bol_inside, C).
    rewrite IH by assumption. rewrite <- app_assoc. reflexivity.
Qed.

Lemma search_in_last_line (r : regex) (line : str) :
  forall c skipped,
    isLineTerminator c = false -> oneLine line ->
    search true (Bol :: r) (Some c) line skipped = None.
Proof.
  induction line as [|x line IH]; intros c skipped C O.
  - cbn [search]. rewrite exec_Bol_inside by exact C. reflexivity.
  - inversion O as [|? ? X O']; subst.
    rewrite search_miss by (apply exec_Bol_inside, C). apply IH; assumption.
Qed.

Lemma oneLine_not_LF (c : N) : isLineTerminator c = false -> (c =? LF)%N = false.
Proof.
  unfold isLineTerminator. rewrite !orb_false_iff. intros [[[H _] _] _]. exact H.
Qed.

Lemma splitOn_one_line (b : str) : oneLine b -> splitOn LF b = [b].
Proof.
  induction 1 as [|c b C _ IH]; [reflexivity|].
  cbn [splitOn]. rewrite (oneLine_not_LF _ C), IH. reflexivity.
Qed.

Lemma splitOn_first_line (a b : str) :
  oneLine a -> splitOn LF (a ++ LF :: b) = a :: splitOn LF b.
Proof.
  induction 1 as [|c a C _ IH]; cbn [app splitOn].
  - rewrite N.eqb_refl. reflexivity.
  - rewrite (oneLine_not_LF _ C), IH. reflexivity.
Qed.

Lemma space_not_hash (w : N) : isWhiteSpace w = true -> (ch "#" =? w)%N = false.
Proof.
  intros W. destruct (ch "#" =? w)%N eqn:E; [|reflexivity].
  apply N.eqb_eq in E. subst w. discriminate.
Qed.

Lemma heading_line_oneLine (marks ws t : str) :
  oneLine marks -> oneLine ws -> plainText t -> oneLine (marks ++ ws ++ t).
Proof.
  intros M W (_ & _ & T). unfold oneLine. rewrite !Forall_app. auto.
Qed.

Lemma exec_Rep (m : bool) (k : cclass) (lo : nat) (hi : option nat)
      (r : regex) (prev : option N) (s : str) (opened caps : captures) :
  exec m (Rep k lo hi :: r) prev s opened caps =
  if runLength k hi s <? lo then None
  else descend (runLength k hi s - lo) lo
         (fun j => exec m r (prevAfter prev s j) (skipn j s) opened caps).
Proof. reflexivity. Qed.

Lemma runLength_zero (k : cclass) (s : str) : runLength k (Some 0) s = 0.
Proof. destruct s; reflexivity. Qed.

Lemma white_space_run (ws t : str) :
  whiteRun ws -> plainText t ->
  forall p, exec false [plus Space] p (ws ++ t) [] [] = Some (t, []).
Proof.
  intros (NW & W) P p. destruct (plainText_head t P) as (c & t' & E & C & _).
  apply exec_rep_greedy.
  - apply whiteRun_cmatch, W.
  - rewrite E. exact C.
  - destruct ws; [congruence | cbn [length]; lia].
  - reflexivity.
Qed.

Lemma heading_match_one (ws t : str) :
  whiteRun ws -> plainText t ->
  isSome (matchRe false reHeading (ch "#" :: ws ++ t)) = true.
Proof.
  intros W P. pose proof (white_space_run ws t W P) as H.
  unfold reHeading. rewrite matchRe_anchored, exec_Rep.
  destruct W as (NW & W). destruct ws as [|w ws]; [congruence|].
  cbn [forallb] in W. apply andb_true_iff in W as [W0 W].
  cbn [app runLength cmatch option_map pred].
  change (ch "#" =? ch "#")%N with true. cbv iota.
  rewrite (space_not_hash w W0).
  cbn [Nat.ltb Nat.leb Nat.sub descend Nat.add skipn]. rewrite H. reflexivity.
Qed.

Lemma heading_match_two (ws t : str) :
  whiteRun ws -> plainText t ->
  isSome (matchRe false reHeading (ch "#" :: ch "#" :: ws ++ t)) = true.
Proof.
  intros W P. pose proof (white_space_run ws t W P) as H.
  unfold reHeading. rewrite matchRe_anchored, exec_Rep.
  cbn [runLength cmatch option_map pred].
  change (ch "#" =? ch "#")%N with true. cbv iota.
  rewrite runLength_zero. cbn [Nat.ltb Nat.leb Nat.sub].
  erewrite descend_first; [|cbn [Nat.add skipn]; apply H].
  reflexivity.
Qed.

Section Block.

Variables ws1 t ws2 s : str.
Hypothesis W1 : whiteRun ws1.
Hypothesis O1 : oneLine ws1.
Hypothesis P1 : plainText t.
Hypothesis W2 : whiteRun ws2.
Hypothesis O2 : oneLine ws2.
Hypothesis P2 : plainText s.

Lemma titleBlock_lines : titleBlock ws1 t ws2 s = (titleLine ws1 t) ++ LF :: (subtitleLine ws2 s).
Proof. reflexivity. Qed.

Lemma titleLine_oneLine : oneLine (titleLine ws1 t).
Proof.
  apply (heading_line_oneLine [ch "#"] ws1 t); auto. repeat constructor.
Qed.

Lemma subtitleLine_oneLine : oneLine (subtitleLine ws2 s).
Proof.
  apply (heading_line_oneLine [ch "#"; ch "#"] ws2 s); auto. repeat constructor.
Qed.

Lemma titleBlock_split : splitOn LF (titleBlock ws1 t ws2 s) = [(titleLine ws1 t); (subtitleLine ws2 s)].
Proof.
  rewrite titleBlock_lines, splitOn_first_line by exact titleLine_oneLine.
  rewrite splitOn_one_line by exact subtitleLine_oneLine. reflexivity.
Qed.

Lemma titleBlock_trimmed :
  trim (titleBlock ws1 t ws2 s) = titleBlock ws1 t ws2 s.
Proof.
  assert (E : titleBlock ws1 t ws2 s =
              ch "#" :: (ws1 ++ t ++ [LF; ch "#"; ch "#"]) ++ ws2 ++ s).
  { unfold titleBlock, titleLine, subtitleLine. cbn [app].
    rewrite <- !app_assoc. reflexivity. }
  rewrite E. apply trim_heading; [reflexivity | exact P2].
Qed.

Lemma titleBlock_noSeparator : noSeparator (titleBlock ws1 t ws2 s).
Proof.
  unfold noSeparator, matchRe, reSeparator. rewrite titleBlock_lines.
  unfold titleLine. cbn [app].
  rewrite search_miss
    by (rewrite exec_Bol_start by auto; apply exec_One_fail; reflexivity).
  rewrite search_in_line; [| reflexivity | ].
  2:{ destruct P1 as (_ & _ & T). unfold oneLine. rewrite Forall_app. auto. }
  unfold subtitleLine.
  rewrite search_miss
    by (rewrite exec_Bol_start by auto; apply exec_One_fail; reflexivity).
  apply search_in_last_line; [reflexivity|].
  apply (heading_line_oneLine [ch "#"] ws2 s); auto. repeat constructor.
Qed.

Lemma titleBlock_title :
  headingText (matchRe true reTitle (titleBlock ws1 t ws2 s)) = Ok t.
Proof.
  unfold matchRe, reTitle. rewrite titleBlock_lines. unfold titleLine.
  cbn [app]. rewrite <- app_assoc.
  erewrite search_hit.
  2:{ rewrite exec_Bol_start by auto. rewrite exec_One by reflexivity.
      apply (exec_heading_tail true _ ws1 t (LF :: (subtitleLine ws2 s)) W1 P1). reflexivity. }
  cbn. f_equal. apply P1.
Qed.

Lemma titleBlock_subtitle :
  headingText (matchRe true reSubtitle (titleBlock ws1 t ws2 s)) = Ok s.
Proof.
  unfold matchRe, reSubtitle. rewrite titleBlock_lines. unfold titleLine.
  cbn [app].
  destruct W1 as (NW & W). destruct ws1 as [|w ws] eqn:EW; [congruence|].
  cbn [forallb] in W. apply andb_true_iff in W as [W0 W].
  rewrite search_miss.
  2:{ rewrite exec_Bol_start by auto. rewrite exec_One by reflexivity.
      cbn [app]. apply exec_One_fail. cbn [cmatch]. apply space_not_hash, W0. }
  rewrite search_in_line; [| reflexivity | ].
  2:{ destruct P1 as (_ & _ & T). unfold oneLine. rewrite Forall_app. auto. }
  unfold subtitleLine. erewrite search_hit.
  2:{ rewrite exec_Bol_start by auto. rewrite !exec_One by reflexivity.
      rewrite <- (app_nil_r s) at 1.
      apply (exec_heading_tail true _ ws2 s [] W2 P2). reflexivity. }
  cbn. f_equal. apply P2.
Qed.

Lemma titleBlock_titleOnly : isTitleOnly (titleBlock ws1 t ws2 s) = true.
Proof.
  unfold isTitleOnly. rewrite titleBlock_split. unfold titleLine, subtitleLine.
  assert (T1 : trim (ch "#" :: ws1 ++ t) = ch "#" :: ws1 ++ t)
    by (apply (trim_heading [] ws1 t); [reflexivity | exact P1]).
  assert (T2 : trim (ch "#" :: ch "#" :: ws2 ++ s) = ch "#" :: ch "#" :: ws2 ++ s)
    by (apply (trim_heading [ch "#"] ws2 s); [reflexivity | exact P2]).
  cbn [filter]. rewrite T1, T2. cbn [truthy isEmpty negb forallb].
  rewrite T1, T2.
  rewrite heading_match_one, heading_match_two by assumption. reflexivity.
Qed.

End Block.

End TitleBlockFacts.

(* ================================================================== *)
(** * Further properties: the slide builder *)
(* ================================================================== *)

(** X1.  [escapeHtml] escapes every code unit once: the five replacements,
    the one of [&] first, leave alone the ampersands that they write.  So
    the escape of a text is the escapes of its code units, one after the
    other, and escaping two texts in a row is escaping the two. *)
Theorem escapeHtml_each_once (text : str) :
  escapeHtml text = flat_map escapeChar text /\
  forall more, escapeHtml (text ++ more) = escapeHtml text ++ escapeHtml more.
Proof. split; [apply escapeHtml_chars | intros; apply escapeHtml_app]. Qed.

(** X2.  What [escapeHtml] returns holds no [<], no [>] and no double or
    single quote, whatever the text. *)
Theorem escapeHtml_safe (text : str) :
  Forall (fun c => c <> ch "<" /\ c <> ch ">" /\ c <> quot /\ c <> ch "'")
         (escapeHtml text).
Proof.
  pose proof (escapeHtml_no_markup text) as H.
  induction (escapeHtml text) as [|c l IH]; [constructor|].
  cbn [filter] in H. destruct (isMarkup c) eqn:M; [discriminate|].
  constructor; [|exact (IH H)].
  unfold isMarkup in M. rewrite !orb_false_iff, !N.eqb_neq in M. tauto.
Qed.

(** X3.  [escapeHtml] loses nothing: two texts with the same escape are the
    same text. *)
Theorem escapeHtml_injective (a b : str) :
  escapeHtml a = escapeHtml b -> a = b.
Proof. rewrite !escapeHtml_chars. apply escapeChars_injective. Qed.

Lemma escapeHtml_injective_witness : js "a<b & c" = js "a<b & c".
Proof. exact (escapeHtml_injective (js "a<b & c") (js "a<b & c") eq_refl). Defined.

(** X4.  [renderBullets] returns for every list of items and every level:
    its calls are on shorter lists, and twice the length of the list and one
    are calls enough; with more the result is the same. *)
Theorem renderBullets_returns (items : list BulletItem) (lvl : Z) :
  exists html,
    renderBullets items lvl = Some html /\
    forall fuel, 2 * length items + 1 <= fuel ->
                 renderBulletsFuel fuel items lvl = Some html.
Proof.
  destruct (renderBullets_ok items lvl) as (h & E). exists h.
  split; [exact E|]. intros fuel L. rewrite renderBulletsFuel_any by exact L.
  exact E.
Qed.

(** X5.  For a list that starts at the level asked for, never goes above it
    and never goes down by more than one level at a time, [renderBullets]
    loses no item: what it returns is the HTML of nested lists whose items,
    read in order, are the items of the list, each at the depth of its
    level. *)
Theorem renderBullets_well_nested (items : list BulletItem) (lvl : Z) :
  items <> [] -> wellNested lvl items ->
  exists forest,
    renderBullets items lvl =
    Some (js "<ul>" ++ flat_map printTree forest ++ js "</ul>") /\
    flat_map preorder forest = items /\
    Forall (atDepth lvl) forest.
Proof.
  intros NE W.
  destruct (bulletsLoopOf_forest (length items) items lvl (le_n _) W)
    as (forest & E & P & D).
  exists forest. rewrite renderBullets_eq, E.
  destruct items; [congruence | auto].
Qed.

Lemma renderBullets_well_nested_witness :
  exists forest,
    renderBullets [bullet "a" 0; bullet "b" 1; bullet "c" 2; bullet "d" 1;
                   bullet "e" 0] 0 =
    Some (js "<ul>" ++ flat_map printTree forest ++ js "</ul>") /\
    flat_map preorder forest =
    [bullet "a" 0; bullet "b" 1; bullet "c" 2; bullet "d" 1; bullet "e" 0] /\
    Forall (atDepth 0) forest.
Proof.
  apply renderBullets_well_nested; [discriminate|].
  cbn. repeat split; try lia. repeat constructor; cbn; lia.
Defined.

(** X6.  [renderBullets] drops the items that come before the first item at
    its level: a list with no item at the level is an empty [ul], and items
    of other levels at the head of a list change nothing. *)
Theorem renderBullets_drops_head (pre : list BulletItem) (lvl : Z) :
  Forall (fun it => level it <> lvl) pre ->
  (pre <> [] -> renderBullets pre lvl = Some (js "<ul></ul>")) /\
  (forall rest, rest <> [] ->
                renderBullets (pre ++ rest) lvl = renderBullets rest lvl).
Proof.
  intros F. split.
  - intros NE. rewrite renderBullets_eq.
    pose proof (bulletsLoopOf_skip pre [] lvl F) as E.
    rewrite app_nil_r in E. rewrite E.
    destruct pre; [congruence | reflexivity].
  - intros rest NE. rewrite !renderBullets_eq, bulletsLoopOf_skip by exact F.
    destruct rest; [congruence|]. destruct pre; reflexivity.
Qed.

Lemma renderBullets_drops_head_witness :
  renderBullets [bullet "a" 1; bullet "b" 2] 0 = Some (js "<ul></ul>") /\
  renderBullets ([bullet "a" 1; bullet "b" 2] ++ [bullet "c" 0]) 0 =
  renderBullets [bullet "c" 0] 0.
Proof.
  destruct (renderBullets_drops_head [bullet "a" 1; bullet "b" 2] 0
              ltac:(repeat constructor; discriminate)) as [A B].
  split; [apply A; discriminate | apply B; discriminate].
Defined.

(** X7.  An item followed by items that are all two levels deeper or more
    has them dropped: it is rendered with an empty list under it, and the
    list goes on with the items after them.  The levels are safe integers,
    so that the level under the item, one more than its own, is below those
    of the items that follow it in the source as it is here. *)
Theorem renderBullets_drops_skipped (item : BulletItem)
        (deep after : list BulletItem) (lvl : Z) :
  Forall (fun x => safeInteger (level x)) (item :: deep ++ after) ->
  level item = lvl -> deep <> [] ->
  Forall (fun x => (lvl + 1 < level x)%Z) deep ->
  match after with
  | [] => True
  | a :: _ => (level a <= lvl)%Z
  end ->
  exists more,
    bulletsLoopOf after lvl = Some more /\
    renderBullets (item :: deep ++ after) lvl =
    Some (js "<ul><li>" ++ escapeHtml (text item) ++ js "<ul></ul></li>"
             ++ more ++ js "</ul>").
Proof.
  intros _ L NE D A.
  destruct (bulletsLoopOf_ok after lvl) as (more & M). exists more.
  split; [exact M|].
  assert (D' : Forall (fun x => (lvl < level x)%Z) deep)
    by (eapply Forall_impl; [|exact D]; cbn; intros; lia).
  destruct (nestedItems_app lvl deep after D' A) as [N1 N2].
  assert (R : renderBullets deep (lvl + 1) = Some (js "<ul></ul>")).
  { rewrite renderBullets_eq.
    assert (F : Forall (fun x => level x <> (lvl + 1)%Z) deep)
      by (eapply Forall_impl; [|exact D]; cbn; intros; lia).
    pose proof (bulletsLoopOf_skip deep [] (lvl + 1) F) as E.
    rewrite app_nil_r in E. rewrite E.
    destruct deep; [congruence | reflexivity]. }
  rewrite renderBullets_eq, bulletsLoopOf_cons, N1, N2, M.
  apply Z.eqb_eq in L. rewrite L.
  destruct deep as [|d ds]; [congruence|]. rewrite R.
  cbn [app]. rewrite <- !app_assoc. reflexivity.
Qed.

Lemma renderBullets_drops_skipped_witness :
  exists more,
    bulletsLoopOf [bullet "z" 0] 0 = Some more /\
    renderBullets (bullet "a" 0 :: [bullet "lost" 2] ++ [bullet "z" 0]) 0 =
    Some (js "<ul><li>" ++ escapeHtml (text (bullet "a" 0))
             ++ js "<ul></ul></li>" ++ more ++ js "</ul>").
Proof.
  refine (renderBullets_drops_skipped (bullet "a" 0) [bullet "lost" 2]
            [bullet "z" 0] 0 _ eq_refl _ _ _).
  - repeat (constructor; [reflexivity|]). constructor.
  - discriminate.
  - repeat constructor.
  - cbn [level bullet]. lia.
Defined.

(** X8.  The texts of a content block add no markup to what
    [renderContent] returns: its [<], [>] and quotes are, in order, those of
    the same block with every text emptied. *)
Theorem renderContent_markup (b : ContentBlock) :
  exists html html0,
    renderContent b = Some html /\
    renderContent (eraseText b) = Some html0 /\
    filter isMarkup html = filter isMarkup html0.
Proof.
  destruct b as [items | alt src | language code | t]; cbn [renderContent eraseText].
  - rewrite !renderBullets_eq.
    destruct (bulletsLoopOf_markup (length items) items 0 (le_n _))
      as (h & h0 & E & E0 & F).
    rewrite E, E0. destruct items as [|i r]; cbn [map].
    + exists [], []. auto.
    + eexists; eexists; split; [reflexivity | split; [reflexivity|]].
      rewrite !filter_app, F. reflexivity.
  - eexists; eexists; split; [reflexivity | split; [reflexivity|]].
    rewrite !filter_app, !escapeHtml_no_markup. reflexivity.
  - eexists; eexists; split; [reflexivity | split; [reflexivity|]].
    rewrite !filter_app, !escapeHtml_no_markup. reflexivity.
  - eexists; eexists; split; [reflexivity | split; [reflexivity|]].
    rewrite !filter_app, !escapeHtml_no_markup. reflexivity.
Qed.

(* ================================================================== *)
(** * Further properties: the outline parser *)
(* ================================================================== *)

(** X9.  The lines of a run of bullets, up to a line that is no bullet or to
    the end of the block, give one list: the items of the lines, in order,
    after the bullets that were pending; the blocks of the lines that follow
    come after the list. *)
Theorem bullet_run_one_list (run tail : list str)
        (pushed : list ContentBlock) (cur : list BulletItem) :
  run <> [] -> Forall bulletMatching run ->
  match tail with
  | [] => True
  | l :: _ => ~ bulletMatching l
  end ->
  exists items,
    itemsOf run items /\
    contentLoop (run ++ tail) pushed cur =
    (out <- contentLoop tail [] [] ;;
     Ok (pushed ++ Bullets (cur ++ items) :: out)).
Proof.
  intros NE R T. destruct (bullet_run run R) as (items & I & E).
  exists items. split; [exact I|]. rewrite E.
  assert (NI : cur ++ items <> []).
  { destruct items; [|destruct cur; discriminate].
    inversion I; subst. congruence. }
  assert (FL : flush (cur ++ items) pushed = pushed ++ [Bullets (cur ++ items)])
    by (destruct (cur ++ items); [congruence | reflexivity]).
  destruct tail as [|l rest].
  - cbn [contentLoop bind flush]. rewrite FL. reflexivity.
  - rewrite contentLoop_flush_first by exact T.
    rewrite (proj1 (loops_content (l :: rest))), FL.
    destruct (contentLoop (l :: rest) [] []); cbn [bind]; [|reflexivity].
    rewrite <- app_assoc. reflexivity.
Qed.

Lemma bullet_run_one_list_witness :
  exists items,
    itemsOf [js "- a"; js "  - b"] items /\
    contentLoop ([js "- a"; js "  - b"] ++ [js "text"; js "- c"]) [] [] =
    (out <- contentLoop [js "text"; js "- c"] [] [] ;;
     Ok ([] ++ Bullets ([] ++ items) :: out)).
Proof.
  refine (bullet_run_one_list [js "- a"; js "  - b"] [js "text"; js "- c"]
            [] [] _ _ _).
  - discriminate.
  - repeat constructor; discriminate.
  - intros H; apply H; reflexivity.
Defined.

(** X10.  An outline whose first block is a title line and a subtitle line,
    one hash and two hashes with white space and a text after them, has the
    two texts as its title and subtitle, and its slides are those of the
    other blocks: the title block gives no slide. *)
Theorem title_block_outline (ws1 t ws2 s : str) (segs : list str) :
  whiteRun ws1 -> oneLine ws1 -> plainText t ->
  whiteRun ws2 -> oneLine ws2 -> plainText s ->
  Forall noSeparator segs ->
  parseOutline (join sepLine (titleBlock ws1 t ws2 s :: segs)) =
  (slides <- parseSlides (filter truthy (map trim segs)) ;;
   Ok {| title := t; subtitle := s; theme := js "minimal";
         timing_default := 5; slides := slides |}).
Proof.
  intros W1 O1 P1 W2 O2 P2 F.
  unfold parseOutline. rewrite blocksOf_join.
  2:{ constructor; [apply titleBlock_noSeparator; assumption | exact F]. }
  cbn [map filter]. rewrite titleBlock_trimmed by assumption.
  replace (truthy (titleBlock ws1 t ws2 s)) with true by reflexivity.
  rewrite titleBlock_title, titleBlock_subtitle by assumption.
  rewrite titleBlock_titleOnly by assumption.
  cbn [bind tl]. reflexivity.
Qed.

Lemma title_block_outline_witness :
  parseOutline
    (join sepLine (titleBlock (js " ") (js "My Talk") (js " ") (js "for all")
                     :: [js "# One\n- a"; js "text"])) =
  (slides <- parseSlides (filter truthy (map trim [js "# One\n- a"; js "text"])) ;;
   Ok {| title := js "My Talk"; subtitle := js "for all";
         theme := js "minimal"; timing_default := 5; slides := slides |}).
Proof.
  refine (title_block_outline (js " ") (js "My Talk") (js " ") (js "for all")
            [js "# One\n- a"; js "text"] _ _ _ _ _ _ _).
  - split; [discriminate | reflexivity].
  - repeat constructor.
  - split; [discriminate | split; [reflexivity | repeat constructor]].
  - split; [discriminate | reflexivity].
  - repeat constructor.
  - split; [discriminate | split; [reflexivity | repeat constructor]].
  - repeat constructor.
Defined.

(** X11.  A line that is an image, [!], an alternative text without [\]] in
    brackets and a source without [)] in parentheses, with white space
    around it or not, closes the pending bullets and gives an image block
    with that text and that source. *)
Theorem image_line (pad1 alt src pad2 : str) (rest : list str)
        (pushed : list ContentBlock) (cur : list BulletItem) :
  forallb isWhiteSpace pad1 = true -> forallb isWhiteSpace pad2 = true ->
  Forall (fun c => c <> ch "]") alt ->
  src <> [] -> Forall (fun c => c <> ch ")") src ->
  contentLoop ((pad1 ++ imageLine alt src ++ pad2) :: rest) pushed cur =
  contentLoop rest (flush cur pushed ++ [Image alt src]) [].
Proof.
  intros W1 W2 A NE S.
  assert (T : trim (pad1 ++ imageLine alt src ++ pad2) = imageLine alt src).
  { rewrite trim_padded by assumption. unfold trim.
    replace (trimStart (imageLine alt src)) with (imageLine alt src)
      by reflexivity.
    rewrite imageLine_last. apply trimEnd_last. reflexivity. }
  cbn [contentLoop]. rewrite T.
  replace (truthy (imageLine alt src)) with true by reflexivity.
  rewrite image_match by assumption. reflexivity.
Qed.

Lemma image_line_witness :
  contentLoop ((js "  " ++ imageLine (js "a logo") (js "img/logo.png") ++ js " ")
                 :: [js "- a"]) [] [bullet "b" 0] =
  contentLoop [js "- a"]
    (flush [bullet "b" 0] [] ++ [Image (js "a logo") (js "img/logo.png")]) [].
Proof.
  refine (image_line (js "  ") (js "a logo") (js "img/logo.png") (js " ")
            [js "- a"] [] [bullet "b" 0] eq_refl eq_refl _ _ _).
  - repeat (constructor; [discriminate|]). constructor.
  - discriminate.
  - repeat (constructor; [discriminate|]). constructor.
Defined.

(** X12.  The title of a slide is the text of the first line of its block
    that is not blank, when this line is one hash, white space and a text;
    the lines after it are the content of the slide. *)
Theorem slide_heading (block : str) (blanks : list str) (l ws t : str)
        (rest : list str) :
  splitOn LF block = blanks ++ l :: rest ->
  Forall (fun b => trim b = []) blanks ->
  trim l = ch "#" :: ws ++ t -> whiteRun ws -> plainText t ->
  parseSlideBlock block =
  (content <- contentLoop rest [] [] ;;
   Ok {| slide_title := t; content := content |}).
Proof.
  intros L B T W P. unfold parseSlideBlock.
  rewrite L, findTitle_skip by exact B. cbn [findTitle].
  rewrite T, title_line_match by assumption. cbn [isSome].
  rewrite hash_replace by assumption.
  destruct P as (_ & -> & _). reflexivity.
Qed.

Lemma slide_heading_witness :
  parseSlideBlock (js " \n#  Plan \n- a") =
  (content <- contentLoop [js "- a"] [] [] ;;
   Ok {| slide_title := js "Plan"; content := content |}).
Proof.
  refine (slide_heading (js " \n#  Plan \n- a") [js " "] (js "#  Plan ")
            (js "  ") (js "Plan") [js "- a"] eq_refl _ eq_refl _ _).
  - repeat constructor.
  - split; [discriminate | reflexivity].
  - split; [discriminate | split; [reflexivity | repeat constructor]].
Defined.

(** X13.  A line whose first code unit after white space is none of [!],
    [-], [*] and the backtick is a paragraph: it closes the pending bullets
    and gives a text block with the trimmed line.  A heading after the
    title of the slide is such a line, and keeps its hashes. *)
Theorem paragraph_line (line : str) (c : N) (t : str) (rest : list str)
        (pushed : list ContentBlock) (cur : list BulletItem) :
  trim line = c :: t ->
  c <> ch "!" -> c <> ch "-" -> c <> ch "*" -> c <> ch "`" ->
  contentLoop (line :: rest) pushed cur =
  contentLoop rest (flush cur pushed ++ [Text (c :: t)]) [].
Proof.
  intros T NI ND NS NF. cbn [contentLoop]. rewrite T.
  cbn [truthy isEmpty negb].
  destruct (matchRe false reImage (c :: t)) as [im|] eqn:I.
  { apply image_head in I as (t' & I). injection I as I _. contradiction. }
  destruct (matchRe false reBullet line) as [f|] eqn:B.
  { destruct (bullet_match_trim _ _ B) as (c' & t' & g2 & T' & C & _).
    rewrite T in T'. injection T' as -> _. destruct C; contradiction. }
  destruct (startsWith fence (c :: t)) eqn:F; [|reflexivity].
  apply startsWith_fence in F as (t' & F). rewrite fence_eq in F.
  cbn [app] in F. injection F as F _. contradiction.
Qed.

Lemma paragraph_line_witness :
  contentLoop (js "  ## Details " :: [js "- a"]) [] [bullet "b" 0] =
  contentLoop [js "- a"]
    (flush [bullet "b" 0] [] ++ [Text (ch "#" :: js "# Details")]) [].
Proof.
  refine (paragraph_line (js "  ## Details ") (ch "#") (js "# Details")
            [js "- a"] [] [bullet "b" 0] eq_refl _ _ _ _); discriminate.
Defined.

(** X14.  The parser and the builder together: a run of bullets whose lines
    all start with two white-space code units or more is parsed into one
    list, with an item for every line, and the builder renders this list as
    an empty [ul]: none of its items is at level 0. *)
Theorem indented_run_renders_empty (run : list str) :
  run <> [] ->
  Forall (fun l => bulletMatching l /\ 2 <= leadingWhiteSpace l) run ->
  exists items,
    contentLoop run [] [] = Ok [Bullets items] /\
    length items = length run /\
    renderContent (Bullets items) = Some (js "<ul></ul>").
Proof.
  intros NE F.
  assert (R : Forall bulletMatching run)
    by (eapply Forall_impl; [|exact F]; cbn; tauto).
  destruct (bullet_run run R) as (items & I & E).
  exists items. specialize (E [] [] []). rewrite app_nil_r in E.
  cbn [app contentLoop] in E.
  assert (NI : items <> []) by (inversion I; subst; congruence).
  assert (LV : Forall (fun it => level it <> 0%Z) items).
  { clear E NE R NI. induction I as [|l it run items C _ IH]; [constructor|].
    inversion F as [|? ? [_ L2] F']; subst.
    constructor; [|exact (IH F')].
    apply classify_inv in C as [_ ->].
    assert (1 <= Z.of_nat (leadingWhiteSpace l) / 2)%Z
      by (apply Z.div_le_lower_bound; lia).
    lia. }
  split; [|split].
  - rewrite E. destruct items; [congruence | reflexivity].
  - symmetry. exact (Forall2_length I).
  - cbn [renderContent]. rewrite renderBullets_eq.
    pose proof (bulletsLoopOf_skip items [] 0 LV) as S.
    rewrite app_nil_r in S. rewrite S.
    destruct items; [congruence | reflexivity].
Qed.

Lemma indented_run_renders_empty_witness :
  exists items,
    contentLoop [js "  - a"; js "    - b"] [] [] = Ok [Bullets items] /\
    length items = length [js "  - a"; js "    - b"] /\
    renderContent (Bullets items) = Some (js "<ul></ul>").
Proof.
  refine (indented_run_renders_empty [js "  - a"; js "    - b"] _ _).
  - discriminate.
  - repeat constructor; try discriminate; cbn; lia.
Defined.
